(** * blob-ross: the shape generator and the liquify engine of [src/App.tsx]

    A shallow embedding of the numeric core of the drawing toy: the curve
    control-point deriver, the random shape generator, the canvas transform
    used when the shape is drawn, the inverse mapping used when the shape is
    liquified, and the transform actions.

    Conventions of the embedding.
    - A JavaScript [number] that holds a coordinate is a real number: the
      arithmetic of the source is read in the field [R], so [Math.sqrt],
      [Math.cos], [Math.sin] and [Math.PI] are the real functions and the
      constant [PI].  This reading leaves the rounding of IEEE doubles out;
      the module [Binary64] reads the deriver and the vertex radius in
      doubles, to show the two places where rounding is visible.
    - A [number] that holds an index or a count (array indices, [numPoints],
      [rotation]) is an integer [Z]; [%] is the truncating remainder [Z.rem].
    - Reading an array out of range yields [undefined]; reading a property of
      [undefined] throws.  Code that may throw lives in the [outcome] monad.
    - React state is passed explicitly: a handler is a function on [AppState].
    - [Math.random] reads a stream of draws, the next one first, and leaves
      the rest of the stream. *)

From Stdlib Require Import Floats String Bool ZArith List Reals Lra Lia.
Import ListNotations.

Set Warnings "-inexact-float".

Local Open Scope R_scope.

(** ** JavaScript values *)

Abbreviation number := R.

(** The result of running code that may throw. *)
Inductive outcome (A : Type) : Type :=
| Normal (a : A)
| TypeError.

Arguments Normal {A} a.
Arguments TypeError {A}.

Definition bind {A B : Type} (m : outcome A) (k : A -> outcome B) : outcome B :=
  match m with
  | Normal a => k a
  | TypeError => TypeError
  end.

Notation "x <- m ;; k" := (bind m (fun x => k))
  (at level 61, m at next level, right associativity).

(** [arr[i]] for an integer [i]: [None] is [undefined]. *)
Definition array_get {A : Type} (arr : list A) (i : Z) : option A :=
  if (i <? 0)%Z then None else nth_error arr (Z.to_nat i).

(** [arr[i].field...]: the read that throws when [arr[i]] is [undefined]. *)
Definition deref {A : Type} (o : option A) : outcome A :=
  match o with
  | Some a => Normal a
  | None => TypeError
  end.

(** [arr.map((a, i) => f a i)], the index counted from [i]. *)
Fixpoint map_from {A B : Type} (f : A -> Z -> outcome B) (i : Z) (arr : list A)
  : outcome (list B) :=
  match arr with
  | [] => Normal []
  | a :: rest =>
      b <- f a i ;;
      bs <- map_from f (i + 1)%Z rest ;;
      Normal (b :: bs)
  end.

Definition array_map {A B : Type} (f : A -> Z -> outcome B) (arr : list A)
  : outcome (list B) :=
  map_from f 0%Z arr.

(** ** Types *)

Record Vertex : Type := { x : number; y : number }.

(** [interface BezierPoint extends Vertex]: the inherited fields are reached
    through the coercion. *)
Record BezierPoint : Type := {
  vertex :> Vertex;
  cp1x : number;
  cp1y : number;
  cp2x : number;
  cp2y : number
}.

(** [color] holds what [blobColors[k]] yielded: [None] is [undefined]. *)
Record ShapeConfig : Type := {
  vertices : list Vertex;
  points : list BezierPoint;
  color : option string;
  rotation : Z;
  flipX : bool;
  flipY : bool
}.

Inductive InteractionMode : Type := draw | erase | liquify.

(** ** Constants *)

Definition CANVAS_SIZE : number := 600.
Definition LIQUIFY_RADIUS : number := 60.
Definition LIQUIFY_STRENGTH : number := 8 / 10.

(** ** computeBezierPoints *)

Definition tension : number := 3 / 10.

(** The callback of [vertices.map] in [computeBezierPoints].  It runs only
    for the elements of a non-empty array, so [numPoints] is not zero where
    [%] is taken. *)
Definition bezierPoint (vertices : list Vertex) (numPoints : Z) (p : Vertex) (i : Z)
  : outcome BezierPoint :=
  prev <- deref (array_get vertices (Z.rem (i - 1 + numPoints) numPoints)) ;;
  next <- deref (array_get vertices (Z.rem (i + 1) numPoints)) ;;
  let cp1x := x p - (x next - x prev) * tension in
  let cp1y := y p - (y next - y prev) * tension in
  let cp2x := x p + (x next - x prev) * tension in
  let cp2y := y p + (y next - y prev) * tension in
  Normal {| vertex := {| x := x p; y := y p |};
            cp1x := cp1x; cp1y := cp1y; cp2x := cp2x; cp2y := cp2y |}.

Definition computeBezierPoints (vertices : list Vertex) : outcome (list BezierPoint) :=
  let numPoints := Z.of_nat (length vertices) in
  array_map (bezierPoint vertices numPoints) vertices.

(** ** The platform: [Math], the random source, the 2D context *)

Definition Math_PI : number := PI.
Definition Math_cos (a : number) : number := cos a.
Definition Math_sin (a : number) : number := sin a.
Definition Math_sqrt (a : number) : number := sqrt a.
Definition Math_pow (b : number) (e : nat) : number := b ^ e.
Definition Math_floor (a : number) : Z := Zfloor a.

(** The draws that [Math.random] will return, the next one first. *)
Definition RandomSource := nat -> number.

Definition Math_random (g : RandomSource) : number * RandomSource :=
  (g 0%nat, fun k => g (S k)).

(** The current transformation matrix of a [CanvasRenderingContext2D]: the
    point [(px, py)] of the path is painted at
    [(m_a * px + m_c * py + m_e, m_b * px + m_d * py + m_f)].  The methods
    [translate], [rotate] and [scale] multiply it on the right, as the HTML
    standard defines them. *)
Record Matrix : Type := {
  m_a : number; m_b : number;
  m_c : number; m_d : number;
  m_e : number; m_f : number
}.

Definition identityMatrix : Matrix :=
  {| m_a := 1; m_b := 0; m_c := 0; m_d := 1; m_e := 0; m_f := 0 |}.

Definition ctx_translate (tx ty : number) (m : Matrix) : Matrix :=
  {| m_a := m_a m; m_b := m_b m;
     m_c := m_c m; m_d := m_d m;
     m_e := m_a m * tx + m_c m * ty + m_e m;
     m_f := m_b m * tx + m_d m * ty + m_f m |}.

Definition ctx_rotate (angle : number) (m : Matrix) : Matrix :=
  {| m_a := m_a m * cos angle + m_c m * sin angle;
     m_b := m_b m * cos angle + m_d m * sin angle;
     m_c := m_c m * cos angle - m_a m * sin angle;
     m_d := m_d m * cos angle - m_b m * sin angle;
     m_e := m_e m;
     m_f := m_f m |}.

Definition ctx_scale (sx sy : number) (m : Matrix) : Matrix :=
  {| m_a := m_a m * sx; m_b := m_b m * sx;
     m_c := m_c m * sy; m_d := m_d m * sy;
     m_e := m_e m; m_f := m_f m |}.

Definition transformPoint (m : Matrix) (p : Vertex) : Vertex :=
  {| x := m_a m * x p + m_c m * y p + m_e m;
     y := m_b m * x p + m_d m * y p + m_f m |}.

(** ** generateRandomShape *)

Definition blobColors : list string :=
  [ "#f4c8d5"; "#80cbfa"; "#8ed99e"; "#c3b1db"; "#f2ebda"; "#5ba470"; "#ebcf64" ]%string.

(** The radius of one vertex, from the draw [u] of [Math.random]. *)
Definition vertexRadius (baseRadius u : number) : number :=
  baseRadius + (u - 5 / 10) * baseRadius * (12 / 10).

(** The body of the [for] loop, run for [i], [i + 1], ..., [count] times:
    [count] is the number of iterations left before [i < numPoints] fails. *)
Fixpoint pushVertices (count : nat) (i numPoints : Z) (centerX centerY baseRadius : number)
  (vertices : list Vertex) (g : RandomSource) : list Vertex * RandomSource :=
  match count with
  | O => (vertices, g)
  | S count' =>
      let angle := IZR i / IZR numPoints * Math_PI * 2 in
      let (u, g') := Math_random g in
      let radius := vertexRadius baseRadius u in
      pushVertices count' (i + 1)%Z numPoints centerX centerY baseRadius
        (vertices ++ [ {| x := centerX + Math_cos angle * radius;
                          y := centerY + Math_sin angle * radius |} ])
        g'
  end.

(** The shape handed to [setShape], and the random source left. *)
Definition generateRandomShape (g : RandomSource) : outcome (ShapeConfig * RandomSource) :=
  let (u, g) := Math_random g in
  let numPoints := (Math_floor (u * 4)%R + 6)%Z in
  let centerX := CANVAS_SIZE / 2 in
  let centerY := CANVAS_SIZE / 2 in
  let baseRadius := CANVAS_SIZE * (25 / 100) in
  let (vertices, g) :=
    pushVertices (Z.to_nat (numPoints - 0)) 0%Z numPoints centerX centerY baseRadius [] g in
  bezierPoints <- computeBezierPoints vertices ;;
  let (u, g) := Math_random g in
  let color := array_get blobColors (Math_floor (u * IZR (Z.of_nat (length blobColors)))) in
  Normal ({| vertices := vertices;
             points := bezierPoints;
             color := color;
             rotation := 0;
             flipX := false;
             flipY := false |}, g).

(** ** drawShape: the transform under which the path is painted *)

Definition drawShape_transform (shape : ShapeConfig) : Matrix :=
  let m := identityMatrix in
  let m := ctx_translate (CANVAS_SIZE / 2) (CANVAS_SIZE / 2) m in
  let m := ctx_rotate (IZR (rotation shape) * Math_PI / 180) m in
  let m := ctx_scale (if flipX shape then -1 else 1) (if flipY shape then -1 else 1) m in
  let m := ctx_translate (- CANVAS_SIZE / 2) (- CANVAS_SIZE / 2) m in
  m.

(** Where the renderer paints the local point [p] of the shape. *)
Definition renderPoint (shape : ShapeConfig) (p : Vertex) : Vertex :=
  transformPoint (drawShape_transform shape) p.

(** ** The application state and the pointer handlers *)

(** [topCanvas]: [topCanvasRef.current] is an element; [context2d]: its
    [getContext('2d')] is a context.  The ink painted on that canvas is not
    part of the state: no code path reads it back. *)
Record Env : Type := { topCanvas : bool; context2d : bool }.

Record AppState : Type := {
  shape : option ShapeConfig;
  isInteracting : bool;
  mode : InteractionMode;
  lastPos : option Vertex
}.

Definition mode_eqb (m1 m2 : InteractionMode) : bool :=
  match m1, m2 with
  | draw, draw | erase, erase | liquify, liquify => true
  | _, _ => false
  end.

(** [setShape(f)] for an updater [f]. *)
Definition setShape (f : option ShapeConfig -> option ShapeConfig) (st : AppState) : AppState :=
  {| shape := f (shape st);
     isInteracting := isInteracting st;
     mode := mode st;
     lastPos := lastPos st |}.

Definition set_lastPos (p : option Vertex) (st : AppState) : AppState :=
  {| shape := shape st;
     isInteracting := isInteracting st;
     mode := mode st;
     lastPos := p |}.

Definition setIsInteracting (b : bool) (st : AppState) : AppState :=
  {| shape := shape st;
     isInteracting := b;
     mode := mode st;
     lastPos := lastPos st |}.

Definition setMode (m : InteractionMode) (st : AppState) : AppState :=
  {| shape := shape st;
     isInteracting := isInteracting st;
     mode := m;
     lastPos := lastPos st |}.

(** [transformCoords], the closure of [handleMouseMove] over [shape]. *)
Definition transformCoords (shape : ShapeConfig) (p : Vertex) : Vertex :=
  let tx := x p - CANVAS_SIZE / 2 in
  let ty := y p - CANVAS_SIZE / 2 in
  let rad := (- IZR (rotation shape) * Math_PI) / 180 in
  let rx := tx * Math_cos rad - ty * Math_sin rad in
  let ry := tx * Math_sin rad + ty * Math_cos rad in
  let sx := if flipX shape then - rx else rx in
  let sy := if flipY shape then - ry else ry in
  {| x := sx + CANVAS_SIZE / 2; y := sy + CANVAS_SIZE / 2 |}.

(** The distance of the vertex [v] to the cursor, in shape space. *)
Definition liquifyDist (localCoords v : Vertex) : number :=
  Math_sqrt (Math_pow (x v - x localCoords) 2 + Math_pow (y v - y localCoords) 2).

(** The callback of [shape.vertices.map] in [handleMouseMove]. *)
Definition liquifyVertex (localCoords : Vertex) (ldx ldy : number) (v : Vertex) : Vertex :=
  let dist := liquifyDist localCoords v in
  if Rlt_dec dist LIQUIFY_RADIUS then
    let force := (1 - dist / LIQUIFY_RADIUS) * LIQUIFY_STRENGTH in
    {| x := x v + ldx * force; y := y v + ldy * force |}
  else v.

(** [newVertices] of [handleMouseMove], for the cursor at [coords] now and at
    [last] before. *)
Definition newVertices (shape : ShapeConfig) (coords last : Vertex) : list Vertex :=
  let localCoords := transformCoords shape coords in
  let prevLocalCoords := transformCoords shape last in
  let ldx := x localCoords - x prevLocalCoords in
  let ldy := y localCoords - y prevLocalCoords in
  map (liquifyVertex localCoords ldx ldy) (vertices shape).

(** The updater handed to [setShape] by the liquify branch, applied to the
    shape [prev] of the state. *)
Definition liquifyUpdate (newVertices : list Vertex) (prev : option ShapeConfig)
  : outcome (option ShapeConfig) :=
  match prev with
  | Some prev =>
      points <- computeBezierPoints newVertices ;;
      Normal (Some {| vertices := newVertices;
                      points := points;
                      color := color prev;
                      rotation := rotation prev;
                      flipX := flipX prev;
                      flipY := flipY prev |})
  | None => Normal None
  end.

(** [handleMouseDown] with the pointer at [coords]. *)
Definition handleMouseDown (env : Env) (coords : Vertex) (st : AppState) : AppState :=
  if negb (topCanvas env) then st
  else setIsInteracting true (set_lastPos (Some coords) st).

(** [handleMouseMove] with the pointer at [coords], the value of
    [getCanvasCoords], when the component has been rendered since the state
    last changed: the [isInteracting], [mode] and [shape] the handler closes
    over are then the ones in the state.  [handleMouseMoveAt] below is the
    handler for any render. *)
Definition handleMouseMove (env : Env) (coords : Vertex) (st : AppState) : outcome AppState :=
  if negb (isInteracting st) then Normal st
  else if negb (topCanvas env) then Normal st
  else if mode_eqb (mode st) draw || mode_eqb (mode st) erase then
    if negb (context2d env) then Normal st
    else Normal (set_lastPos (Some coords) st)
  else
    match mode_eqb (mode st) liquify, shape st, lastPos st with
    | true, Some current, Some last =>
        let newVertices := newVertices current coords last in
        shape' <- liquifyUpdate newVertices (shape st) ;;
        Normal (set_lastPos (Some coords) (setShape (fun _ => shape') st))
    | _, _, _ => Normal (set_lastPos (Some coords) st)
    end.

(** [handleMouseMove] as the render [rendered] defined it, run in the state
    [st]: the handler closes over [isInteracting], [mode] and [shape] of the
    render, reads [lastPos.current], a ref, from the state, and hands
    [setShape] an updater that React applies to the shape of the state. *)
Definition handleMouseMoveAt (env : Env) (coords : Vertex) (rendered st : AppState)
  : outcome AppState :=
  if negb (isInteracting rendered) then Normal st
  else if negb (topCanvas env) then Normal st
  else if mode_eqb (mode rendered) draw || mode_eqb (mode rendered) erase then
    if negb (context2d env) then Normal st
    else Normal (set_lastPos (Some coords) st)
  else
    match mode_eqb (mode rendered) liquify, shape rendered, lastPos st with
    | true, Some current, Some last =>
        let newVertices := newVertices current coords last in
        shape' <- liquifyUpdate newVertices (shape st) ;;
        Normal (set_lastPos (Some coords) (setShape (fun _ => shape') st))
    | _, _, _ => Normal (set_lastPos (Some coords) st)
    end.

Definition handleMouseUp (st : AppState) : AppState :=
  setIsInteracting false (set_lastPos None st).

(** A run of pointer-move events under any schedule of renders: each move
    comes with whether the component is rendered after it, before the next
    move; until it is, the handler is the one of the last render. *)
Fixpoint handleMouseMovesAt (env : Env) (moves : list (Vertex * bool))
  (rendered st : AppState) : outcome AppState :=
  match moves with
  | [] => Normal st
  | (coords, render) :: moves' =>
      st' <- handleMouseMoveAt env coords rendered st ;;
      handleMouseMovesAt env moves' (if render then st' else rendered) st'
  end.

(** The run in which the cursor visits [path] in order and the component is
    rendered before the first move and after every move. *)
Definition handleMouseMoves (env : Env) (path : list Vertex) (st : AppState)
  : outcome AppState :=
  handleMouseMovesAt env (map (fun coords => (coords, true)) path) st st.

(** ** Transform actions *)

(** [{ ...prev, rotation: r }], [{ ...prev, flipX: b }] and
    [{ ...prev, flipY: b }]. *)
Definition with_rotation (r : Z) (prev : ShapeConfig) : ShapeConfig :=
  {| vertices := vertices prev; points := points prev; color := color prev;
     rotation := r; flipX := flipX prev; flipY := flipY prev |}.

Definition with_flipX (b : bool) (prev : ShapeConfig) : ShapeConfig :=
  {| vertices := vertices prev; points := points prev; color := color prev;
     rotation := rotation prev; flipX := b; flipY := flipY prev |}.

Definition with_flipY (b : bool) (prev : ShapeConfig) : ShapeConfig :=
  {| vertices := vertices prev; points := points prev; color := color prev;
     rotation := rotation prev; flipX := flipX prev; flipY := b |}.

Definition rotateShape (st : AppState) : AppState :=
  setShape (fun prev =>
    match prev with
    | Some prev => Some (with_rotation (Z.rem (rotation prev + 90) 360) prev)
    | None => None
    end) st.

Definition flipHorizontal (st : AppState) : AppState :=
  setShape (fun prev =>
    match prev with
    | Some prev => Some (with_flipX (negb (flipX prev)) prev)
    | None => None
    end) st.

Definition flipVertical (st : AppState) : AppState :=
  setShape (fun prev =>
    match prev with
    | Some prev => Some (with_flipY (negb (flipY prev)) prev)
    | None => None
    end) st.

(** What a drag does to one vertex of the shape it starts on, under a
    schedule of renders: [rendered] is where the vertex is in the shape of
    the last render and [current] where it is in the state; each move runs
    the callback of [newVertices] on the vertex of the last render. *)
Fixpoint liquifyTrackAt (shape : ShapeConfig) (last : Vertex) (moves : list (Vertex * bool))
  (rendered current : Vertex -> Vertex) : Vertex -> Vertex :=
  match moves with
  | [] => current
  | (coords, render) :: moves' =>
      let localCoords := transformCoords shape coords in
      let prevLocalCoords := transformCoords shape last in
      let current' := fun v : Vertex =>
        liquifyVertex localCoords
          (x localCoords - x prevLocalCoords) (y localCoords - y prevLocalCoords)
          (rendered v) in
      liquifyTrackAt shape coords moves' (if render then current' else rendered) current'
  end.

(** The rotations the data model admits. *)
Definition quarterTurn (r : Z) : Prop := In r [0; 90; 180; 270]%Z.

(** ** getCanvasCoords *)

Record DOMRect : Type := {
  rect_left : number;
  rect_top : number;
  rect_width : number;
  rect_height : number
}.

(** The canvas element: its bitmap size and where the page shows it. *)
Record HTMLCanvasElement : Type := {
  canvas_width : number;
  canvas_height : number;
  getBoundingClientRect : DOMRect
}.

Record Touch : Type := { touch_clientX : number; touch_clientY : number }.

(** [React.MouseEvent | React.TouchEvent]: a touch event is the one that has
    [touches]. *)
Inductive PointerEvent : Type :=
| MouseEvent (clientX clientY : number)
| TouchEvent (touches : list Touch).

(** Over the reals the two quotients are meaningful for a canvas that is
    shown, that is, whose rectangle has a width and a height other than 0. *)
Definition getCanvasCoords (e : PointerEvent) (canvas : HTMLCanvasElement) : outcome Vertex :=
  let rect := getBoundingClientRect canvas in
  let scaleX := canvas_width canvas / rect_width rect in
  let scaleY := canvas_height canvas / rect_height rect in
  client <-
    match e with
    | TouchEvent touches =>
        touch <- deref (array_get touches 0) ;;
        Normal (touch_clientX touch, touch_clientY touch)
    | MouseEvent clientX clientY => Normal (clientX, clientY)
    end ;;
  Normal {| x := (fst client - rect_left rect) * scaleX;
            y := (snd client - rect_top rect) * scaleY |}.

(** ** drawShape: the calls on the 2D context

    A context holds its drawing state (the transformation matrix and the fill
    style), the stack of saved states, the current path, whose points are
    stored as transformed when they are added, and the operations painted so
    far, oldest first. *)

Inductive PathCommand : Type :=
| MoveTo (p : Vertex)
| LineTo (p : Vertex)
| BezierCurveTo (cp1 cp2 p : Vertex)
| ClosePath.

Record DrawingState : Type := {
  ds_transform : Matrix;
  ds_fillStyle : string;
  ds_strokeStyle : string;
  ds_lineWidth : number;
  ds_lineCap : string;
  ds_lineJoin : string;
  ds_globalCompositeOperation : string
}.

(** A stroke is painted with the stroke style, the line attributes and the
    composite operation of the drawing state it is recorded with. *)
Inductive PaintedOp : Type :=
| ClearRect (m : Matrix) (rx ry rw rh : number)
| Fill (commands : list PathCommand) (style : string)
| Stroke (commands : list PathCommand) (state : DrawingState).

Record Context2D : Type := {
  ctx_state : DrawingState;
  ctx_stack : list DrawingState;
  ctx_path : list PathCommand;
  ctx_painted : list PaintedOp
}.

Definition with_state (f : DrawingState -> DrawingState) (ctx : Context2D) : Context2D :=
  {| ctx_state := f (ctx_state ctx);
     ctx_stack := ctx_stack ctx;
     ctx_path := ctx_path ctx;
     ctx_painted := ctx_painted ctx |}.

Definition with_transform (f : Matrix -> Matrix) : Context2D -> Context2D :=
  with_state (fun ds =>
    {| ds_transform := f (ds_transform ds);
       ds_fillStyle := ds_fillStyle ds;
       ds_strokeStyle := ds_strokeStyle ds;
       ds_lineWidth := ds_lineWidth ds;
       ds_lineCap := ds_lineCap ds;
       ds_lineJoin := ds_lineJoin ds;
       ds_globalCompositeOperation := ds_globalCompositeOperation ds |}).

Definition with_path (f : list PathCommand -> list PathCommand) (ctx : Context2D) : Context2D :=
  {| ctx_state := ctx_state ctx;
     ctx_stack := ctx_stack ctx;
     ctx_path := f (ctx_path ctx);
     ctx_painted := ctx_painted ctx |}.

Definition paint (op : PaintedOp) (ctx : Context2D) : Context2D :=
  {| ctx_state := ctx_state ctx;
     ctx_stack := ctx_stack ctx;
     ctx_path := ctx_path ctx;
     ctx_painted := ctx_painted ctx ++ [op] |}.

Definition clearRect (rx ry rw rh : number) (ctx : Context2D) : Context2D :=
  paint (ClearRect (ds_transform (ctx_state ctx)) rx ry rw rh) ctx.

Definition save (ctx : Context2D) : Context2D :=
  {| ctx_state := ctx_state ctx;
     ctx_stack := ctx_state ctx :: ctx_stack ctx;
     ctx_path := ctx_path ctx;
     ctx_painted := ctx_painted ctx |}.

(** [restore] with nothing saved does nothing. *)
Definition restore (ctx : Context2D) : Context2D :=
  match ctx_stack ctx with
  | [] => ctx
  | saved :: stack =>
      {| ctx_state := saved;
         ctx_stack := stack;
         ctx_path := ctx_path ctx;
         ctx_painted := ctx_painted ctx |}
  end.

Definition translate (tx ty : number) : Context2D -> Context2D :=
  with_transform (ctx_translate tx ty).

Definition rotate (angle : number) : Context2D -> Context2D :=
  with_transform (ctx_rotate angle).

Definition scale (sx sy : number) : Context2D -> Context2D :=
  with_transform (ctx_scale sx sy).

Definition beginPath : Context2D -> Context2D :=
  with_path (fun _ => []).

Definition moveTo (px py : number) (ctx : Context2D) : Context2D :=
  let m := ds_transform (ctx_state ctx) in
  with_path (fun cs => cs ++ [MoveTo (transformPoint m {| x := px; y := py |})]) ctx.

Definition bezierCurveTo (c1x c1y c2x c2y px py : number) (ctx : Context2D) : Context2D :=
  let m := ds_transform (ctx_state ctx) in
  with_path (fun cs =>
    cs ++ [BezierCurveTo (transformPoint m {| x := c1x; y := c1y |})
                         (transformPoint m {| x := c2x; y := c2y |})
                         (transformPoint m {| x := px; y := py |})]) ctx.

Definition closePath : Context2D -> Context2D :=
  with_path (fun cs => cs ++ [ClosePath]).

(** [ctx.fillStyle = v]: a value that is no colour, as [undefined] is, is
    ignored; the strings of the palette are colours. *)
Definition set_fillStyle (v : option string) (ctx : Context2D) : Context2D :=
  match v with
  | Some style =>
      with_state (fun ds =>
        {| ds_transform := ds_transform ds;
           ds_fillStyle := style;
           ds_strokeStyle := ds_strokeStyle ds;
           ds_lineWidth := ds_lineWidth ds;
           ds_lineCap := ds_lineCap ds;
           ds_lineJoin := ds_lineJoin ds;
           ds_globalCompositeOperation := ds_globalCompositeOperation ds |}) ctx
  | None => ctx
  end.

(** The setters of the stroke attributes, each given a value it accepts. *)
Definition set_strokeStyle (style : string) : Context2D -> Context2D :=
  with_state (fun ds =>
    {| ds_transform := ds_transform ds;
       ds_fillStyle := ds_fillStyle ds;
       ds_strokeStyle := style;
       ds_lineWidth := ds_lineWidth ds;
       ds_lineCap := ds_lineCap ds;
       ds_lineJoin := ds_lineJoin ds;
       ds_globalCompositeOperation := ds_globalCompositeOperation ds |}).

Definition set_lineWidth (w : number) : Context2D -> Context2D :=
  with_state (fun ds =>
    {| ds_transform := ds_transform ds;
       ds_fillStyle := ds_fillStyle ds;
       ds_strokeStyle := ds_strokeStyle ds;
       ds_lineWidth := w;
       ds_lineCap := ds_lineCap ds;
       ds_lineJoin := ds_lineJoin ds;
       ds_globalCompositeOperation := ds_globalCompositeOperation ds |}).

Definition set_lineCap (cap : string) : Context2D -> Context2D :=
  with_state (fun ds =>
    {| ds_transform := ds_transform ds;
       ds_fillStyle := ds_fillStyle ds;
       ds_strokeStyle := ds_strokeStyle ds;
       ds_lineWidth := ds_lineWidth ds;
       ds_lineCap := cap;
       ds_lineJoin := ds_lineJoin ds;
       ds_globalCompositeOperation := ds_globalCompositeOperation ds |}).

Definition set_lineJoin (join : string) : Context2D -> Context2D :=
  with_state (fun ds =>
    {| ds_transform := ds_transform ds;
       ds_fillStyle := ds_fillStyle ds;
       ds_strokeStyle := ds_strokeStyle ds;
       ds_lineWidth := ds_lineWidth ds;
       ds_lineCap := ds_lineCap ds;
       ds_lineJoin := join;
       ds_globalCompositeOperation := ds_globalCompositeOperation ds |}).

Definition set_globalCompositeOperation (op : string) : Context2D -> Context2D :=
  with_state (fun ds =>
    {| ds_transform := ds_transform ds;
       ds_fillStyle := ds_fillStyle ds;
       ds_strokeStyle := ds_strokeStyle ds;
       ds_lineWidth := ds_lineWidth ds;
       ds_lineCap := ds_lineCap ds;
       ds_lineJoin := ds_lineJoin ds;
       ds_globalCompositeOperation := op |}).

(** [lineTo] on a path without a subpath starts one at the point. *)
Definition lineTo (px py : number) (ctx : Context2D) : Context2D :=
  let p := transformPoint (ds_transform (ctx_state ctx)) {| x := px; y := py |} in
  with_path (fun cs =>
    match cs with
    | [] => [MoveTo p]
    | _ :: _ => cs ++ [LineTo p]
    end) ctx.

Definition stroke (ctx : Context2D) : Context2D :=
  paint (Stroke (ctx_path ctx) (ctx_state ctx)) ctx.

Definition fill (ctx : Context2D) : Context2D :=
  paint (Fill (ctx_path ctx) (ds_fillStyle (ctx_state ctx))) ctx.

(** The [for] loop of [drawShape], [count] iterations from index [i]. *)
Fixpoint bezierSegments (count : nat) (i : Z) (points : list BezierPoint)
  (ctx : Context2D) : outcome Context2D :=
  match count with
  | O => Normal ctx
  | S count' =>
      curr <- deref (array_get points i) ;;
      next <- deref (array_get points (Z.rem (i + 1) (Z.of_nat (length points)))) ;;
      bezierSegments count' (i + 1)%Z points
        (bezierCurveTo (cp2x curr) (cp2y curr) (cp1x next) (cp1y next) (x next) (y next) ctx)
  end.

(** [drawShape] on the context [ctx] of the bottom canvas: [canvas] says
    whether [bottomCanvasRef.current] is an element and [context2d] whether
    its [getContext('2d')] is a context. *)
Definition drawShape (canvas context2d : bool) (shape : option ShapeConfig)
  (ctx : Context2D) : outcome Context2D :=
  match shape with
  | Some shape =>
      if negb canvas then Normal ctx
      else if negb context2d then Normal ctx
      else
        let ctx := clearRect 0 0 CANVAS_SIZE CANVAS_SIZE ctx in
        let ctx := save ctx in
        let ctx := translate (CANVAS_SIZE / 2) (CANVAS_SIZE / 2) ctx in
        let ctx := rotate (IZR (rotation shape) * Math_PI / 180) ctx in
        let ctx := scale (if flipX shape then -1 else 1) (if flipY shape then -1 else 1) ctx in
        let ctx := translate (- CANVAS_SIZE / 2) (- CANVAS_SIZE / 2) ctx in
        let ctx := beginPath ctx in
        first <- deref (array_get (points shape) 0) ;;
        let ctx := moveTo (x first) (y first) ctx in
        ctx <- bezierSegments (length (points shape)) 0 (points shape) ctx ;;
        let ctx := closePath ctx in
        let ctx := set_fillStyle (color shape) ctx in
        let ctx := fill ctx in
        Normal (restore ctx)
  | None => Normal ctx
  end.

(** ** The ink layer: what the pointer handlers do to the top canvas

    [handleMouseDown] and [handleMouseMove] set state, which is their part
    above, and paint on the context of the top canvas, which is their part
    here; [st] is the state the handler reads. *)

Definition brushSize : number := 4.
Definition brushColor : string := "#1a1a1a"%string.

Definition inkMouseDown (env : Env) (st : AppState) (coords : Vertex) (ctx : Context2D)
  : Context2D :=
  if negb (topCanvas env) then ctx
  else if mode_eqb (mode st) draw || mode_eqb (mode st) erase then
    if negb (context2d env) then ctx
    else
      let ctx := beginPath ctx in
      let ctx := moveTo (x coords) (y coords) ctx in
      let ctx := set_lineCap "round" ctx in
      let ctx := set_lineJoin "round" ctx in
      if mode_eqb (mode st) erase then
        let ctx := set_globalCompositeOperation "destination-out" ctx in
        set_lineWidth (brushSize * 5) ctx
      else
        let ctx := set_globalCompositeOperation "source-over" ctx in
        let ctx := set_strokeStyle brushColor ctx in
        set_lineWidth brushSize ctx
  else ctx.

Definition inkMouseMove (env : Env) (st : AppState) (coords : Vertex) (ctx : Context2D)
  : Context2D :=
  if negb (isInteracting st) then ctx
  else if negb (topCanvas env) then ctx
  else if mode_eqb (mode st) draw || mode_eqb (mode st) erase then
    if negb (context2d env) then ctx
    else stroke (lineTo (x coords) (y coords) ctx)
  else ctx.

(** [clearDrawing] on the canvas element [canvas]. *)
Definition clearDrawing (env : Env) (canvas : HTMLCanvasElement) (ctx : Context2D)
  : Context2D :=
  if negb (topCanvas env) then ctx
  else if negb (context2d env) then ctx
  else clearRect 0 0 (canvas_width canvas) (canvas_height canvas) ctx.

(** A handler as a whole: the state and the context of the top canvas. *)
Definition pointerDown (env : Env) (coords : Vertex) (page : AppState * Context2D)
  : AppState * Context2D :=
  (handleMouseDown env coords (fst page), inkMouseDown env (fst page) coords (snd page)).

Definition pointerMove (env : Env) (coords : Vertex) (page : AppState * Context2D)
  : outcome (AppState * Context2D) :=
  st <- handleMouseMove env coords (fst page) ;;
  Normal (st, inkMouseMove env (fst page) coords (snd page)).

Fixpoint pointerMoves (env : Env) (path : list Vertex) (page : AppState * Context2D)
  : outcome (AppState * Context2D) :=
  match path with
  | [] => Normal page
  | coords :: path' =>
      page' <- pointerMove env coords page ;;
      pointerMoves env path' page'
  end.

(** The drawing state a press leaves for the stroke, in draw mode and in
    erase mode. *)
Definition strokeState (m : InteractionMode) (ds : DrawingState) : DrawingState :=
  {| ds_transform := ds_transform ds;
     ds_fillStyle := ds_fillStyle ds;
     ds_strokeStyle := if mode_eqb m erase then ds_strokeStyle ds else brushColor;
     ds_lineWidth := if mode_eqb m erase then brushSize * 5 else brushSize;
     ds_lineCap := "round";
     ds_lineJoin := "round";
     ds_globalCompositeOperation :=
       if mode_eqb m erase then "destination-out" else "source-over" |}.

(** The two handles of a point, as points. *)
Definition handle1 (b : BezierPoint) : Vertex := {| x := cp1x b; y := cp1y b |}.
Definition handle2 (b : BezierPoint) : Vertex := {| x := cp2x b; y := cp2y b |}.

(** The transform [drawShape] draws under when it finds the matrix [m]. *)
Definition shapeMatrix (m : Matrix) (shape : ShapeConfig) : Matrix :=
  ctx_translate (- CANVAS_SIZE / 2) (- CANVAS_SIZE / 2)
    (ctx_scale (if flipX shape then -1 else 1) (if flipY shape then -1 else 1)
       (ctx_rotate (IZR (rotation shape) * Math_PI / 180)
          (ctx_translate (CANVAS_SIZE / 2) (CANVAS_SIZE / 2) m))).

(** The curve from the point at index [k] to the next point of the cycle,
    under the matrix [m]; [d] stands for a point out of range. *)
Definition segmentFrom (m : Matrix) (points : list BezierPoint) (d : BezierPoint) (k : nat)
  : PathCommand :=
  let curr := nth k points d in
  let next := nth ((k + 1) mod length points) points d in
  BezierCurveTo (transformPoint m (handle2 curr))
                (transformPoint m (handle1 next))
                (transformPoint m next).

(** ** The events of the page *)

Inductive Event : Type :=
| PointerDown (coords : Vertex)
| PointerMove (coords : Vertex)
| PointerUp
| ClickMode (m : InteractionMode)
| ClickRotate
| ClickFlipHorizontal
| ClickFlipVertical
| ClickNewShape
| ClickClear
| ClickSave.

(** The component state together with the draws [Math.random] has left. *)
Record World : Type := { appState : AppState; random : RandomSource }.

(** The state of the component when it mounts. *)
Definition initialState : AppState :=
  {| shape := None; isInteracting := false; mode := draw; lastPos := None |}.

(** The handler of each event.  [clearDrawing] and [downloadArt] touch the
    canvases and the document only. *)
Definition handleEvent (env : Env) (ev : Event) (w : World) : outcome World :=
  match ev with
  | PointerDown coords =>
      Normal {| appState := handleMouseDown env coords (appState w); random := random w |}
  | PointerMove coords =>
      st <- handleMouseMove env coords (appState w) ;;
      Normal {| appState := st; random := random w |}
  | PointerUp => Normal {| appState := handleMouseUp (appState w); random := random w |}
  | ClickMode m => Normal {| appState := setMode m (appState w); random := random w |}
  | ClickRotate => Normal {| appState := rotateShape (appState w); random := random w |}
  | ClickFlipHorizontal => Normal {| appState := flipHorizontal (appState w); random := random w |}
  | ClickFlipVertical => Normal {| appState := flipVertical (appState w); random := random w |}
  | ClickNewShape =>
      r <- generateRandomShape (random w) ;;
      Normal {| appState := setShape (fun _ => Some (fst r)) (appState w); random := snd r |}
  | ClickClear => Normal w
  | ClickSave => Normal w
  end.

(** The effect that follows a render: with no shape yet it generates one,
    which happens when the component mounts, and otherwise it draws the
    shape, which changes no state. *)
Definition shapeEffect (w : World) : outcome World :=
  match shape (appState w) with
  | None =>
      r <- generateRandomShape (random w) ;;
      Normal {| appState := setShape (fun _ => Some (fst r)) (appState w); random := snd r |}
  | Some _ => Normal w
  end.

Definition step (env : Env) (ev : Event) (w : World) : outcome World :=
  w' <- handleEvent env ev w ;;
  shapeEffect w'.

Fixpoint run (env : Env) (evs : list Event) (w : World) : outcome World :=
  match evs with
  | [] => Normal w
  | ev :: evs' =>
      w' <- step env ev w ;;
      run env evs' w'
  end.

(** Mounting the component on the random source [g], then the events. *)
Definition session (env : Env) (g : RandomSource) (evs : list Event) : outcome World :=
  w <- shapeEffect {| appState := initialState; random := g |} ;;
  run env evs w.

(** What every state after mounting satisfies. *)
Definition wellFormed (st : AppState) : Prop :=
  exists s,
    shape st = Some s /\
    (6 <= length (vertices s) <= 9)%nat /\
    computeBezierPoints (vertices s) = Normal (points s) /\
    quarterTurn (rotation s) /\
    exists c, color s = Some c /\ In c blobColors.

(** ** The deriver and the vertex radius in IEEE doubles

    The same code with [number] read as binary64: [+], [-] and [*] round to
    nearest, and a decimal literal is the double nearest to it. *)

Module Binary64.

Record Vertex : Type := { x : float; y : float }.

Record BezierPoint : Type := {
  vertex :> Vertex;
  cp1x : float;
  cp1y : float;
  cp2x : float;
  cp2y : float
}.

Definition CANVAS_SIZE : float := 600%float.

Definition tension : float := 0.3%float.

Definition bezierPoint (vertices : list Vertex) (numPoints : Z) (p : Vertex) (i : Z)
  : outcome BezierPoint :=
  prev <- deref (array_get vertices (Z.rem (i - 1 + numPoints) numPoints)) ;;
  next <- deref (array_get vertices (Z.rem (i + 1) numPoints)) ;;
  let cp1x := (x p - (x next - x prev) * tension)%float in
  let cp1y := (y p - (y next - y prev) * tension)%float in
  let cp2x := (x p + (x next - x prev) * tension)%float in
  let cp2y := (y p + (y next - y prev) * tension)%float in
  Normal {| vertex := {| x := x p; y := y p |};
            cp1x := cp1x; cp1y := cp1y; cp2x := cp2x; cp2y := cp2y |}.

Definition computeBezierPoints (vertices : list Vertex) : outcome (list BezierPoint) :=
  let numPoints := Z.of_nat (length vertices) in
  array_map (bezierPoint vertices numPoints) vertices.

Definition vertexRadius (baseRadius u : float) : float :=
  (baseRadius + (u - 0.5) * baseRadius * 1.2)%float.

(** Three vertices whose first has the abscissa 0.1 and neighbours one unit
    apart. *)
Definition skewTriangle : list Vertex :=
  [ {| x := 0.1%float; y := 0%float |};
    {| x := 1%float; y := 0%float |};
    {| x := 0%float; y := 0%float |} ].

(** The largest double below 1, [1 - 2^-53]. *)
Definition lastDraw : float := 0x1.fffffffffffffp-1%float.

End Binary64.

(** ** Sample data *)

(** A triangle of vertices. *)
Definition triangle : list Vertex :=
  [ {| x := 0; y := 0 |}; {| x := 10; y := 0 |}; {| x := 0; y := 10 |} ].

(** A shape in its initial orientation whose control points are not used. *)
Definition plainShape (vs : list Vertex) : ShapeConfig :=
  {| vertices := vs; points := []; color := None;
     rotation := 0; flipX := false; flipY := false |}.

(** The first two vertices of the scenario of the specification. *)
Definition scenarioVertices : list Vertex :=
  [ {| x := 450; y := 150 |}; {| x := 600; y := 300 |} ].

(** A liquify drag in progress over [shape], the pointer last seen at
    [last]; and one that has no previous pointer position. *)
Definition dragging (shape : ShapeConfig) (last : Vertex) : AppState :=
  {| shape := Some shape; isInteracting := true; mode := liquify; lastPos := Some last |}.

Definition noHistory (shape : ShapeConfig) : AppState :=
  {| shape := Some shape; isInteracting := true; mode := liquify; lastPos := None |}.

Definition browser : Env := {| topCanvas := true; context2d := true |}.

(** A random source whose every draw is one half. *)
Definition halfSource : RandomSource := fun _ => 1 / 2.

(** Two squares of vertices that differ in the third vertex only. *)
Definition square : list Vertex :=
  [ {| x := 0; y := 0 |}; {| x := 10; y := 0 |};
    {| x := 10; y := 10 |}; {| x := 0; y := 10 |} ].

Definition dentedSquare : list Vertex :=
  [ {| x := 0; y := 0 |}; {| x := 10; y := 0 |};
    {| x := 7; y := 7 |}; {| x := 0; y := 10 |} ].

(** The shape with the vertices [vs], the points derived from them and the
    second colour of the palette, neither turned nor flipped. *)
Definition derivedShape (vs : list Vertex) : ShapeConfig :=
  {| vertices := vs;
     points := match computeBezierPoints vs with
               | Normal pts => pts
               | TypeError => []
               end;
     color := Some "#80cbfa"%string;
     rotation := 0; flipX := false; flipY := false |}.

(** A context as [getContext('2d')] first returns it. *)
Definition freshContext : Context2D :=
  {| ctx_state := {| ds_transform := identityMatrix;
                     ds_fillStyle := "#000000"%string;
                     ds_strokeStyle := "#000000"%string;
                     ds_lineWidth := 1;
                     ds_lineCap := "butt"%string;
                     ds_lineJoin := "miter"%string;
                     ds_globalCompositeOperation := "source-over"%string |};
     ctx_stack := [];
     ctx_path := [];
     ctx_painted := [] |}.

(** The canvas of 600 by 600 shown at half its size, 10 from the left and 20
    from the top of the viewport. *)
Definition halfSizeCanvas : HTMLCanvasElement :=
  {| canvas_width := 600; canvas_height := 600;
     getBoundingClientRect :=
       {| rect_left := 10; rect_top := 20; rect_width := 300; rect_height := 300 |} |}.

(** * Properties *)

(** ** The [outcome] monad and array helpers *)

Lemma bind_Normal_inv {A B : Type} (m : outcome A) (k : A -> outcome B) (b : B) :
  bind m k = Normal b -> exists a, m = Normal a /\ k a = Normal b.
Proof.
  destruct m as [a|]; simpl; intros H.
  - exists a. split; [reflexivity | exact H].
  - discriminate H.
Qed.

Lemma array_get_nat {A : Type} (arr : list A) (k : nat) :
  array_get arr (Z.of_nat k) = nth_error arr k.
Proof.
  unfold array_get.
  destruct (Z.ltb_spec (Z.of_nat k) 0) as [Hneg|_]; [lia|].
  now rewrite Nat2Z.id.
Qed.

Lemma array_get_in_range {A : Type} (arr : list A) (i : Z) :
  (0 <= i < Z.of_nat (length arr))%Z -> exists a, array_get arr i = Some a.
Proof.
  intros Hi.
  rewrite <- (Z2Nat.id i) by lia.
  rewrite array_get_nat.
  destruct (nth_error arr (Z.to_nat i)) as [a|] eqn:E.
  - now exists a.
  - apply nth_error_None in E. lia.
Qed.

(** [map] keeps the length and the positions, and throws only if the callback
    does. *)
Lemma map_from_nth {A B : Type} (f : A -> Z -> outcome B) (arr : list A) :
  forall (i : Z) (bs : list B),
    map_from f i arr = Normal bs ->
    length bs = length arr /\
    forall (k : nat) (a : A),
      nth_error arr k = Some a ->
      exists b, nth_error bs k = Some b /\ f a (i + Z.of_nat k)%Z = Normal b.
Proof.
  induction arr as [|a0 rest IH]; intros i bs H; simpl in H.
  - injection H as <-. split; [reflexivity|].
    intros [|k] a Hk; discriminate Hk.
  - apply bind_Normal_inv in H as (b0 & Hb0 & H).
    apply bind_Normal_inv in H as (bs' & Hbs' & H).
    injection H as <-.
    destruct (IH _ _ Hbs') as [Hlen Hnth].
    split; [simpl; now rewrite Hlen|].
    intros [|k] a Hk; simpl in Hk.
    + injection Hk as <-. exists b0. split; [reflexivity|].
      now replace (i + Z.of_nat 0)%Z with i by lia.
    + destruct (Hnth k a Hk) as (b & Hb & Hf).
      exists b. split; [exact Hb|].
      now replace (i + Z.of_nat (S k))%Z with (i + 1 + Z.of_nat k)%Z by lia.
Qed.

Lemma map_from_total {A B : Type} (f : A -> Z -> outcome B) (arr : list A) :
  forall (i : Z),
    (forall (k : nat) (a : A),
        nth_error arr k = Some a -> exists b, f a (i + Z.of_nat k)%Z = Normal b) ->
    exists bs, map_from f i arr = Normal bs.
Proof.
  induction arr as [|a0 rest IH]; intros i Hf; simpl.
  - now exists [].
  - destruct (Hf 0%nat a0 eq_refl) as (b0 & Hb0).
    replace (i + Z.of_nat 0)%Z with i in Hb0 by lia.
    rewrite Hb0; simpl.
    destruct (IH (i + 1)%Z) as (bs & Hbs).
    + intros k a Hk. destruct (Hf (S k) a Hk) as (b & Hb).
      exists b. now replace (i + 1 + Z.of_nat k)%Z with (i + Z.of_nat (S k))%Z by lia.
    + rewrite Hbs; simpl. now exists (b0 :: bs).
Qed.

(** ** computeBezierPoints *)

(** The two neighbour reads of the callback are in range for every index of
    the array, and [%] agrees there with the mathematical [mod]. *)
Lemma bezierPoint_Normal (vs : list Vertex) (p : Vertex) (i : Z) :
  let n := Z.of_nat (length vs) in
  (0 <= i < n)%Z ->
  exists prev next,
    array_get vs ((i - 1 + n) mod n)%Z = Some prev /\
    array_get vs ((i + 1) mod n)%Z = Some next /\
    bezierPoint vs n p i =
      Normal {| vertex := p;
                cp1x := x p - (x next - x prev) * (3 / 10);
                cp1y := y p - (y next - y prev) * (3 / 10);
                cp2x := x p + (x next - x prev) * (3 / 10);
                cp2y := y p + (y next - y prev) * (3 / 10) |}.
Proof.
  intros n Hi.
  assert (Hp : Z.rem (i - 1 + n) n = ((i - 1 + n) mod n)%Z)
    by (apply Z.rem_mod_nonneg; lia).
  assert (Hq : Z.rem (i + 1) n = ((i + 1) mod n)%Z)
    by (apply Z.rem_mod_nonneg; lia).
  destruct (array_get_in_range vs ((i - 1 + n) mod n)%Z) as (prev & Hprev).
  { apply Z.mod_pos_bound. lia. }
  destruct (array_get_in_range vs ((i + 1) mod n)%Z) as (next & Hnext).
  { apply Z.mod_pos_bound. lia. }
  exists prev, next. split; [exact Hprev|]. split; [exact Hnext|].
  unfold bezierPoint. rewrite Hp, Hq, Hprev, Hnext. simpl.
  unfold tension. destruct p as [px py]. reflexivity.
Qed.

(** [computeBezierPoints] never throws. *)
Lemma computeBezierPoints_total (vs : list Vertex) :
  exists pts, computeBezierPoints vs = Normal pts.
Proof.
  unfold computeBezierPoints, array_map.
  apply map_from_total. intros k a Hk.
  assert (Hlt : (k < length vs)%nat) by (apply nth_error_Some; congruence).
  destruct (bezierPoint_Normal vs a (0 + Z.of_nat k)%Z) as (prev & next & _ & _ & H);
    [lia|].
  eexists. exact H.
Qed.

Lemma computeBezierPoints_nth (vs : list Vertex) (pts : list BezierPoint)
  (i : nat) (v : Vertex) :
  computeBezierPoints vs = Normal pts ->
  nth_error vs i = Some v ->
  let n := Z.of_nat (length vs) in
  exists p q,
    array_get vs ((Z.of_nat i - 1 + n) mod n)%Z = Some p /\
    array_get vs ((Z.of_nat i + 1) mod n)%Z = Some q /\
    nth_error pts i =
      Some {| vertex := v;
              cp1x := x v - (x q - x p) * (3 / 10);
              cp1y := y v - (y q - y p) * (3 / 10);
              cp2x := x v + (x q - x p) * (3 / 10);
              cp2y := y v + (y q - y p) * (3 / 10) |}.
Proof.
  intros Hpts Hv n.
  unfold computeBezierPoints, array_map in Hpts.
  destruct (map_from_nth _ _ _ _ Hpts) as [_ Hnth].
  destruct (Hnth i v Hv) as (b & Hb & Hf). rewrite Z.add_0_l in Hf.
  assert (Hlt : (i < length vs)%nat) by (apply nth_error_Some; congruence).
  destruct (bezierPoint_Normal vs v (Z.of_nat i)) as (p & q & Hp & Hq & H); [lia|].
  exists p, q. split; [exact Hp|]. split; [exact Hq|].
  rewrite H in Hf. injection Hf as <-. exact Hb.
Qed.

Lemma computeBezierPoints_length (vs : list Vertex) (pts : list BezierPoint) :
  computeBezierPoints vs = Normal pts -> length pts = length vs.
Proof.
  intros Hpts. unfold computeBezierPoints, array_map in Hpts.
  now destruct (map_from_nth _ _ _ _ Hpts) as [Hlen _].
Qed.

(** The derived points, read as vertices, are the input in its order. *)
Lemma computeBezierPoints_vertices (vs : list Vertex) (pts : list BezierPoint) :
  computeBezierPoints vs = Normal pts -> map vertex pts = vs.
Proof.
  intros Hpts.
  apply nth_error_ext. intros i.
  rewrite nth_error_map.
  destruct (nth_error vs i) as [v|] eqn:Hv.
  - destruct (computeBezierPoints_nth vs pts i v Hpts Hv) as (p & q & _ & _ & H).
    now rewrite H.
  - apply nth_error_None in Hv.
    rewrite <- (computeBezierPoints_length _ _ Hpts) in Hv.
    apply nth_error_None in Hv. now rewrite Hv.
Qed.

(** C3. Curve-control-point derivation: for every vertex sequence [vs] (of
    any length, so in particular of length at least three) and every index
    [i] of it, with [p] the previous and [q] the next neighbour in the cycle
    and the tension 0.3, [computeBezierPoints] returns normally, the point it
    derives at [i] sits on [vs[i]] and has the handles
    [cp1 = vs[i] - (q - p) * 0.3] and [cp2 = vs[i] + (q - p) * 0.3]; the
    output has the length and the order of the input.  The function reads
    nothing but its argument and writes nothing, which is what lets it be a
    function here. *)
Theorem computeBezierPoints_spec (vs : list Vertex) (i : nat) (v : Vertex) :
  nth_error vs i = Some v ->
  let n := Z.of_nat (length vs) in
  exists pts p q,
    computeBezierPoints vs = Normal pts /\
    length pts = length vs /\
    map vertex pts = vs /\
    array_get vs ((Z.of_nat i - 1 + n) mod n)%Z = Some p /\
    array_get vs ((Z.of_nat i + 1) mod n)%Z = Some q /\
    nth_error pts i =
      Some {| vertex := v;
              cp1x := x v - (x q - x p) * (3 / 10);
              cp1y := y v - (y q - y p) * (3 / 10);
              cp2x := x v + (x q - x p) * (3 / 10);
              cp2y := y v + (y q - y p) * (3 / 10) |}.
Proof.
  intros Hv n.
  destruct (computeBezierPoints_total vs) as (pts & Hpts).
  destruct (computeBezierPoints_nth vs pts i v Hpts Hv) as (p & q & Hp & Hq & H).
  exists pts, p, q.
  repeat split; auto using computeBezierPoints_length, computeBezierPoints_vertices.
Qed.

Lemma computeBezierPoints_spec_witness :
  exists pts,
    computeBezierPoints triangle = Normal pts /\
    length pts = 3%nat /\
    nth_error pts 0 =
      Some {| vertex := {| x := 0; y := 0 |};
              cp1x := -3; cp1y := 3; cp2x := 3; cp2y := -3 |}.
Proof.
  destruct (computeBezierPoints_spec triangle 0 {| x := 0; y := 0 |} eq_refl)
    as (pts & p & q & Hpts & Hlen & _ & Hp & Hq & Hnth).
  exists pts. split; [exact Hpts|]. split; [exact Hlen|].
  change (Some {| x := 0; y := 10 |} = Some p) in Hp.
  change (Some {| x := 10; y := 0 |} = Some q) in Hq.
  injection Hp as <-. injection Hq as <-.
  rewrite Hnth. simpl. do 2 f_equal; lra.
Defined.

(** C9, as amended. Tangent symmetry: for every vertex sequence and every
    index [i] of it (so for every length from one on), the point derived at
    [i] has exactly the coordinates of [vs[i]], and with the arithmetic read
    exactly, over the reals, [vs[i]] is the midpoint of its two handles:
    [cp1x + cp2x = 2 * x] and [cp1y + cp2y = 2 * y]. *)
Theorem computeBezierPoints_midpoint (vs : list Vertex) (i : nat) (v : Vertex) :
  nth_error vs i = Some v ->
  exists pts b,
    computeBezierPoints vs = Normal pts /\
    nth_error pts i = Some b /\
    x b = x v /\ y b = y v /\
    cp1x b + cp2x b = 2 * x b /\
    cp1y b + cp2y b = 2 * y b.
Proof.
  intros Hv.
  destruct (computeBezierPoints_total vs) as (pts & Hpts).
  destruct (computeBezierPoints_nth vs pts i v Hpts Hv) as (p & q & _ & _ & H).
  eexists pts, _. split; [exact Hpts|]. split; [exact H|].
  simpl. repeat split; lra.
Qed.

Lemma computeBezierPoints_midpoint_witness :
  exists pts b,
    computeBezierPoints triangle = Normal pts /\
    nth_error pts 1 = Some b /\
    x b = 10 /\ y b = 0 /\
    cp1x b + cp2x b = 2 * x b /\
    cp1y b + cp2y b = 2 * y b.
Proof.
  exact (computeBezierPoints_midpoint triangle 1 {| x := 10; y := 0 |} eq_refl).
Defined.

(** In doubles the two handles are the vertex minus and plus one offset, each
    rounded, and their sum need not be twice the vertex: at the abscissa 0.1
    with neighbours one unit apart the handles are -0.19999999999999998 and
    0.4, whose sum 0.20000000000000004 is not 0.2. *)
Lemma midpoint_inexact_in_binary64 :
  exists pts b,
    Binary64.computeBezierPoints Binary64.skewTriangle = Normal pts /\
    nth_error pts 0 = Some b /\
    Binary64.x (Binary64.vertex b) = 0.1%float /\
    (Binary64.cp1x b + Binary64.cp2x b)%float <>
      (2 * Binary64.x (Binary64.vertex b))%float.
Proof.
  eexists _, _. split; [vm_compute; reflexivity|].
  split; [reflexivity|]. split; [reflexivity|].
  intros H.
  apply (f_equal (fun v => PrimFloat.eqb v (2 * 0.1)%float)) in H.
  vm_compute in H. discriminate H.
Qed.

(** ** The renderer's transform and its inverse *)

Lemma vertex_eq (p q : Vertex) : x p = x q -> y p = y q -> p = q.
Proof. destruct p, q; simpl; intros -> ->; reflexivity. Qed.

(** The point painted for the local point [p], written out: flip about the
    centre, then turn about the centre. *)
Lemma renderPoint_formula (shape : ShapeConfig) (p : Vertex) :
  let a := IZR (rotation shape) * PI / 180 in
  let sx := if flipX shape then -1 else 1 in
  let sy := if flipY shape then -1 else 1 in
  renderPoint shape p =
    {| x := cos a * (sx * (x p - 300)) - sin a * (sy * (y p - 300)) + 300;
       y := sin a * (sx * (x p - 300)) + cos a * (sy * (y p - 300)) + 300 |}.
Proof.
  intros a sx sy.
  unfold renderPoint, drawShape_transform, transformPoint, ctx_translate, ctx_rotate,
    ctx_scale, identityMatrix, CANVAS_SIZE, Math_PI; simpl.
  fold a sx sy.
  apply vertex_eq; simpl; field.
Qed.

(** A shape that is neither turned nor flipped is liquified in screen
    coordinates. *)
Lemma transformCoords_plain (shape : ShapeConfig) (p : Vertex) :
  rotation shape = 0%Z -> flipX shape = false -> flipY shape = false ->
  transformCoords shape p = p.
Proof.
  intros Hr Hx Hy.
  unfold transformCoords, Math_cos, Math_sin, Math_PI, CANVAS_SIZE.
  rewrite Hr, Hx, Hy.
  replace (- 0 * PI / 180) with 0 by field.
  rewrite cos_0, sin_0.
  apply vertex_eq; simpl; field.
Qed.

(** C1. Round trip of the rigid transform: for every rotation (so for 0, 90,
    180 and 270) and both values of [flipX] and of [flipY], painting a local
    point with the renderer's transform (translate to the centre, rotate by
    [rotation] degrees, scale by the flips, translate back) and mapping the
    painted point with [transformCoords] gives the local point again. *)
Theorem transformCoords_renderPoint (shape : ShapeConfig) (p : Vertex) :
  transformCoords shape (renderPoint shape p) = p.
Proof.
  rewrite renderPoint_formula.
  unfold transformCoords, Math_cos, Math_sin, Math_PI, CANVAS_SIZE; simpl.
  replace (- IZR (rotation shape) * PI / 180)
    with (- (IZR (rotation shape) * PI / 180)) by field.
  rewrite cos_neg, sin_neg.
  set (a := IZR (rotation shape) * PI / 180).
  assert (H : cos a * cos a + sin a * sin a = 1).
  { generalize (sin2_cos2 a). unfold Rsqr. lra. }
  set (c := cos a) in *. set (s := sin a) in *.
  apply vertex_eq; simpl;
    destruct (flipX shape), (flipY shape);
    match goal with
    | |- _ = ?r =>
        apply Rminus_diag_uniq;
        transitivity ((r - 300) * (c * c + s * s - 1)); [field | rewrite H; ring]
    end.
Qed.

(** ** The liquify step *)

Lemma newVertices_nth (shape : ShapeConfig) (coords last : Vertex) (i : nat) :
  let localCoords := transformCoords shape coords in
  let prevLocalCoords := transformCoords shape last in
  nth_error (newVertices shape coords last) i =
    option_map
      (liquifyVertex localCoords
         (x localCoords - x prevLocalCoords) (y localCoords - y prevLocalCoords))
      (nth_error (vertices shape) i).
Proof.
  intros lc pc. unfold newVertices. fold lc pc.
  rewrite nth_error_map. reflexivity.
Qed.

(** C2. Liquify falloff: for the vertex [v] at index [i], the cursor at
    [localCoords] in shape space after a move by [(ldx, ldy)], and [dist]
    the Euclidean distance from [v] to [localCoords]: if [dist >= 60] the
    vertex is kept; if [dist < 60] it becomes
    [v + (ldx, ldy) * ((1 - dist / 60) * 0.8)]; in particular it moves by
    [0.8 * (ldx, ldy)] at distance 0 and by [0.4 * (ldx, ldy)] at distance
    30. *)
Theorem liquify_falloff (shape : ShapeConfig) (coords last v : Vertex) (i : nat) :
  nth_error (vertices shape) i = Some v ->
  let localCoords := transformCoords shape coords in
  let prevLocalCoords := transformCoords shape last in
  let ldx := x localCoords - x prevLocalCoords in
  let ldy := y localCoords - y prevLocalCoords in
  let dist := sqrt ((x v - x localCoords) ^ 2 + (y v - y localCoords) ^ 2) in
  let moved := fun k : number => {| x := x v + ldx * k; y := y v + ldy * k |} in
  let v' := nth_error (newVertices shape coords last) i in
  (dist >= 60 -> v' = Some v) /\
  (dist < 60 -> v' = Some (moved ((1 - dist / 60) * (8 / 10)))) /\
  (dist = 0 -> v' = Some (moved (8 / 10))) /\
  (dist = 30 -> v' = Some (moved (4 / 10))).
Proof.
  intros Hv lc pc ldx ldy dist moved v'.
  assert (Hv' : v' = Some (liquifyVertex lc ldx ldy v)).
  { unfold v'. rewrite newVertices_nth. fold lc pc ldx ldy. now rewrite Hv. }
  assert (Hfar : dist >= 60 -> liquifyVertex lc ldx ldy v = v).
  { intros Hd. unfold liquifyVertex, liquifyDist, Math_sqrt, Math_pow, LIQUIFY_RADIUS.
    fold dist. destruct (Rlt_dec dist 60) as [Hlt|_]; [lra | reflexivity]. }
  assert (Hnear : dist < 60 ->
                  liquifyVertex lc ldx ldy v = moved ((1 - dist / 60) * (8 / 10))).
  { intros Hd.
    unfold liquifyVertex, liquifyDist, Math_sqrt, Math_pow, LIQUIFY_RADIUS,
      LIQUIFY_STRENGTH.
    fold dist. destruct (Rlt_dec dist 60) as [_|Hge]; [reflexivity | lra]. }
  rewrite Hv'. repeat split.
  - intros Hd. now rewrite Hfar.
  - intros Hd. now rewrite Hnear.
  - intros Hd. rewrite Hnear by lra. rewrite Hd.
    unfold moved. do 2 f_equal; field.
  - intros Hd. rewrite Hnear by lra. rewrite Hd.
    unfold moved. do 2 f_equal; field.
Qed.

(** The drag of the scenario, from [(450, 150)] to [(460, 150)]: the first
    vertex is 10 away from the cursor and moves by [10 * (5/6 * 0.8)]. *)
Lemma liquify_falloff_witness :
  nth_error
    (newVertices (plainShape scenarioVertices)
       {| x := 460; y := 150 |} {| x := 450; y := 150 |}) 0 =
  Some {| x := 450 + 10 * ((1 - 10 / 60) * (8 / 10)); y := 150 |}.
Proof.
  pose proof (liquify_falloff (plainShape scenarioVertices)
                {| x := 460; y := 150 |} {| x := 450; y := 150 |}
                {| x := 450; y := 150 |} 0 eq_refl) as H.
  cbv zeta in H.
  rewrite !transformCoords_plain in H by reflexivity.
  cbn [x y] in H.
  assert (Hd : sqrt ((450 - 460) ^ 2 + (150 - 150) ^ 2) = 10).
  { replace ((450 - 460) ^ 2 + (150 - 150) ^ 2) with (10 * 10) by ring.
    apply sqrt_square. lra. }
  rewrite Hd in H.
  destruct H as (_ & Hnear & _ & _).
  rewrite Hnear by lra.
  f_equal. apply vertex_eq; simpl; ring.
Defined.

(** ** handleMouseMove *)

(** The one path on which [handleMouseMove] reaches [setShape]. *)
Lemma handleMouseMove_liquify (env : Env) (coords last : Vertex) (st : AppState)
  (s : ShapeConfig) :
  isInteracting st = true -> topCanvas env = true -> mode st = liquify ->
  shape st = Some s -> lastPos st = Some last ->
  exists pts,
    computeBezierPoints (newVertices s coords last) = Normal pts /\
    handleMouseMove env coords st =
      Normal {| shape := Some {| vertices := newVertices s coords last;
                                 points := pts;
                                 color := color s;
                                 rotation := rotation s;
                                 flipX := flipX s;
                                 flipY := flipY s |};
                isInteracting := true;
                mode := liquify;
                lastPos := Some coords |}.
Proof.
  intros Hi Hc Hm Hs Hl.
  destruct (computeBezierPoints_total (newVertices s coords last)) as (pts & Hpts).
  exists pts. split; [exact Hpts|].
  unfold handleMouseMove, liquifyUpdate, set_lastPos, setShape.
  rewrite Hi, Hc, Hm, Hs, Hl; simpl. rewrite Hpts; simpl. reflexivity.
Qed.

(** Off that path the shape of the state is the one it was. *)
Lemma handleMouseMove_idle (env : Env) (coords : Vertex) (st : AppState) :
  isInteracting st = false \/ topCanvas env = false \/ mode st <> liquify \/
  shape st = None \/ lastPos st = None ->
  exists st', handleMouseMove env coords st = Normal st' /\ shape st' = shape st.
Proof.
  intros H. unfold handleMouseMove.
  destruct (isInteracting st); simpl; [|now exists st].
  destruct (topCanvas env); simpl; [|now exists st].
  destruct (mode st) eqn:Hm; simpl.
  - destruct (context2d env); simpl; eexists; split; reflexivity.
  - destruct (context2d env); simpl; eexists; split; reflexivity.
  - destruct (shape st) as [s|] eqn:Hs; [destruct (lastPos st) as [l|] eqn:Hl|].
    + exfalso. destruct H as [H|[H|[H|[H|H]]]]; congruence.
    + eexists; split; [reflexivity | simpl; congruence].
    + eexists; split; [reflexivity | simpl; congruence].
Qed.

(** [handleMouseMove] never throws. *)
Lemma handleMouseMove_total (env : Env) (coords : Vertex) (st : AppState) :
  exists st', handleMouseMove env coords st = Normal st'.
Proof.
  destruct (isInteracting st) eqn:Hi.
  2:{ destruct (handleMouseMove_idle env coords st) as (st' & H & _); eauto. }
  destruct (topCanvas env) eqn:Hc.
  2:{ destruct (handleMouseMove_idle env coords st) as (st' & H & _); eauto. }
  destruct (shape st) as [s|] eqn:Hs.
  2:{ destruct (handleMouseMove_idle env coords st) as (st' & H & _); eauto 6. }
  destruct (lastPos st) as [l|] eqn:Hl.
  2:{ destruct (handleMouseMove_idle env coords st) as (st' & H & _); eauto 6. }
  destruct (mode st) eqn:Hm.
  1,2: destruct (handleMouseMove_idle env coords st) as (st' & H & _);
    [right; right; left; congruence | eauto].
  destruct (handleMouseMove_liquify env coords l st s) as (pts & _ & H); eauto.
Qed.

(** The press records the pointer position, so the first move after a press
    in liquify mode already has a previous position and displaces vertices. *)
Lemma first_move_after_press (env : Env) (down coords : Vertex) (st : AppState)
  (s : ShapeConfig) :
  topCanvas env = true -> mode st = liquify -> shape st = Some s ->
  exists st' s',
    handleMouseMove env coords (handleMouseDown env down st) = Normal st' /\
    shape st' = Some s' /\
    vertices s' = newVertices s coords down.
Proof.
  intros Hc Hm Hs.
  destruct (handleMouseMove_liquify env coords down (handleMouseDown env down st) s)
    as (pts & _ & H);
    try (unfold handleMouseDown; rewrite Hc; simpl; assumption || reflexivity).
  rewrite H. do 2 eexists. split; [reflexivity|]. split; reflexivity.
Qed.

Lemma transformCoords_ext (s1 s2 : ShapeConfig) (p : Vertex) :
  rotation s1 = rotation s2 -> flipX s1 = flipX s2 -> flipY s1 = flipY s2 ->
  transformCoords s1 p = transformCoords s2 p.
Proof. unfold transformCoords. intros -> -> ->. reflexivity. Qed.

(** The handler of a render that shows the state is [handleMouseMove]. *)
Lemma handleMouseMoveAt_rendered (env : Env) (coords : Vertex) (st : AppState) :
  handleMouseMoveAt env coords st st = handleMouseMove env coords st.
Proof. reflexivity. Qed.

(** With a render after every move, each move runs [handleMouseMove] in the
    state the move before it stored. *)
Lemma handleMouseMoves_cons (env : Env) (coords : Vertex) (path : list Vertex)
  (st : AppState) :
  handleMouseMoves env (coords :: path) st =
  (st' <- handleMouseMove env coords st ;; handleMouseMoves env path st').
Proof. reflexivity. Qed.

(** With no render between them, the second of two moves displaces the
    vertex of the render: what the first move stored is overwritten. *)
Lemma liquifyTrackAt_same_render (s : ShapeConfig) (last c1 c2 : Vertex) (render : bool)
  (v : Vertex) :
  liquifyTrackAt s last [(c1, false); (c2, render)] (fun v => v) (fun v => v) v =
  liquifyVertex (transformCoords s c2)
    (x (transformCoords s c2) - x (transformCoords s c1))
    (y (transformCoords s c2) - y (transformCoords s c1)) v.
Proof. reflexivity. Qed.


(** The liquify path of the handler of a render: the vertices come from the
    shape of the render, the other fields from the shape of the state. *)
Lemma handleMouseMoveAt_liquify (env : Env) (coords last : Vertex)
  (rendered st : AppState) (sr sc : ShapeConfig) :
  isInteracting rendered = true -> topCanvas env = true -> mode rendered = liquify ->
  shape rendered = Some sr -> shape st = Some sc -> lastPos st = Some last ->
  exists pts,
    computeBezierPoints (newVertices sr coords last) = Normal pts /\
    handleMouseMoveAt env coords rendered st =
      Normal {| shape := Some {| vertices := newVertices sr coords last;
                                 points := pts;
                                 color := color sc;
                                 rotation := rotation sc;
                                 flipX := flipX sc;
                                 flipY := flipY sc |};
                isInteracting := isInteracting st;
                mode := mode st;
                lastPos := Some coords |}.
Proof.
  intros Hi Hc Hm Hsr Hsc Hl.
  destruct (computeBezierPoints_total (newVertices sr coords last)) as (pts & Hpts).
  exists pts. split; [exact Hpts|].
  unfold handleMouseMoveAt, liquifyUpdate, set_lastPos, setShape.
  rewrite Hi, Hc, Hm, Hsr, Hsc, Hl; simpl. rewrite Hpts; simpl. reflexivity.
Qed.

(** A drag under any schedule of renders, from a render and a state whose
    shapes both come from the shape [s] vertex by vertex. *)
Lemma handleMouseMovesAt_track (env : Env) (s : ShapeConfig) (moves : list (Vertex * bool)) :
  forall (rendered st : AppState) (sr sc : ShapeConfig) (last : Vertex)
         (rf cf : Vertex -> Vertex),
    topCanvas env = true ->
    isInteracting rendered = true -> mode rendered = liquify -> shape rendered = Some sr ->
    isInteracting st = true -> mode st = liquify -> shape st = Some sc ->
    lastPos st = Some last ->
    vertices sr = map rf (vertices s) ->
    rotation sr = rotation s -> flipX sr = flipX s -> flipY sr = flipY s ->
    vertices sc = map cf (vertices s) ->
    color sc = color s ->
    rotation sc = rotation s -> flipX sc = flipX s -> flipY sc = flipY s ->
    exists st' s',
      handleMouseMovesAt env moves rendered st = Normal st' /\
      shape st' = Some s' /\
      vertices s' = map (liquifyTrackAt s last moves rf cf) (vertices s) /\
      color s' = color s /\ rotation s' = rotation s /\
      flipX s' = flipX s /\ flipY s' = flipY s.
Proof.
  induction moves as [|[c render] moves IH];
    intros rendered st sr sc last rf cf Hc Hri Hrm Hrs Hi Hm Hs Hl
           Hrv Hrr Hrx Hry Hcv Hcc Hcr Hcx Hcy;
    cbn [handleMouseMovesAt liquifyTrackAt].
  - exists st, sc. repeat split; assumption.
  - destruct (handleMouseMoveAt_liquify env c last rendered st sr sc Hri Hc Hrm Hrs Hs Hl)
      as (pts & _ & H).
    rewrite H; cbn [bind]. cbv zeta.
    set (cf' := fun v : Vertex =>
                  liquifyVertex (transformCoords s c)
                    (x (transformCoords s c) - x (transformCoords s last))
                    (y (transformCoords s c) - y (transformCoords s last)) (rf v)).
    assert (Hnew : newVertices sr c last = map cf' (vertices s)).
    { unfold newVertices. rewrite Hrv, map_map.
      rewrite !(transformCoords_ext sr s) by assumption. reflexivity. }
    set (s1 := {| vertices := newVertices sr c last; points := pts; color := color sc;
                  rotation := rotation sc; flipX := flipX sc; flipY := flipY sc |}).
    set (st1 := {| shape := Some s1; isInteracting := isInteracting st;
                   mode := mode st; lastPos := Some c |}).
    destruct render.
    + apply (IH st1 st1 s1 s1 c cf' cf'); try assumption; try reflexivity.
    + apply (IH rendered st1 sr s1 c rf cf'); try assumption; try reflexivity.
Qed.

(** C5. Liquify frame condition: a liquify step (a move while the pointer is
    down in liquify mode, over a shape, with a previous position) returns
    normally and stores a shape whose [vertices] are the displaced vertices
    and whose [points] are derived from them, while [color], [rotation],
    [flipX] and [flipY] are those of the input shape. *)
Theorem liquify_frame (env : Env) (coords last : Vertex) (st : AppState)
  (s : ShapeConfig) :
  isInteracting st = true -> topCanvas env = true -> mode st = liquify ->
  shape st = Some s -> lastPos st = Some last ->
  exists st' s',
    handleMouseMove env coords st = Normal st' /\
    shape st' = Some s' /\
    vertices s' = newVertices s coords last /\
    computeBezierPoints (vertices s') = Normal (points s') /\
    color s' = color s /\
    rotation s' = rotation s /\
    flipX s' = flipX s /\
    flipY s' = flipY s.
Proof.
  intros Hi Hc Hm Hs Hl.
  destruct (handleMouseMove_liquify env coords last st s Hi Hc Hm Hs Hl)
    as (pts & Hpts & H).
  do 2 eexists. split; [exact H|]. simpl.
  split; [reflexivity|]. simpl. repeat split. exact Hpts.
Qed.

Lemma liquify_frame_witness :
  exists st' s',
    handleMouseMove browser {| x := 460; y := 150 |}
      (dragging (plainShape scenarioVertices) {| x := 450; y := 150 |}) = Normal st' /\
    shape st' = Some s' /\
    color s' = None /\ rotation s' = 0%Z /\ flipX s' = false /\ flipY s' = false.
Proof.
  destruct (liquify_frame browser {| x := 460; y := 150 |} {| x := 450; y := 150 |}
              (dragging (plainShape scenarioVertices) {| x := 450; y := 150 |})
              (plainShape scenarioVertices) eq_refl eq_refl eq_refl eq_refl eq_refl)
    as (st' & s' & H & Hs & _ & _ & Hcol & Hrot & Hfx & Hfy).
  exists st', s'. repeat split; assumption.
Defined.



(** C4. Vertex-count invariance under liquify: a drag of any number of
    liquify steps over any cursor positions, whether or not the component
    is rendered between two of them, returns normally; the vertex sequence
    it leaves has the length of the original one, its entry at each index is
    the original entry at that index moved by the steps of the drag (nothing
    is added, removed or reordered), and the other fields of the shape are
    the original ones. *)
Theorem liquify_preserves_vertex_count (env : Env) (moves : list (Vertex * bool))
  (st : AppState) (s : ShapeConfig) (last : Vertex) :
  isInteracting st = true -> topCanvas env = true -> mode st = liquify ->
  shape st = Some s -> lastPos st = Some last ->
  exists st' s',
    handleMouseMovesAt env moves st st = Normal st' /\
    shape st' = Some s' /\
    length (vertices s') = length (vertices s) /\
    vertices s' =
      map (liquifyTrackAt s last moves (fun v => v) (fun v => v)) (vertices s) /\
    color s' = color s /\ rotation s' = rotation s /\
    flipX s' = flipX s /\ flipY s' = flipY s.
Proof.
  intros Hi Hc Hm Hs Hl.
  destruct (handleMouseMovesAt_track env s moves st st s s last (fun v => v) (fun v => v))
    as (st' & s' & Hrun & Hs' & Hvs & Hrest);
    try assumption; try reflexivity; try (symmetry; apply map_id).
  exists st', s'. split; [exact Hrun|]. split; [exact Hs'|].
  split; [rewrite Hvs; apply length_map|].
  split; [exact Hvs | exact Hrest].
Qed.

(** Two moves with no render between them: the second displaces the vertices
    of the render, not the ones the first move stored. *)
Lemma liquify_preserves_vertex_count_witness :
  exists st' s',
    handleMouseMovesAt browser
      [ ({| x := 460; y := 150 |}, false); ({| x := 470; y := 160 |}, true) ]
      (dragging (plainShape scenarioVertices) {| x := 450; y := 150 |})
      (dragging (plainShape scenarioVertices) {| x := 450; y := 150 |}) = Normal st' /\
    shape st' = Some s' /\
    length (vertices s') = 2%nat.
Proof.
  destruct (liquify_preserves_vertex_count browser
              [ ({| x := 460; y := 150 |}, false); ({| x := 470; y := 160 |}, true) ]
              (dragging (plainShape scenarioVertices) {| x := 450; y := 150 |})
              (plainShape scenarioVertices) {| x := 450; y := 150 |}
              eq_refl eq_refl eq_refl eq_refl eq_refl)
    as (st' & s' & H & Hs & Hlen & _).
  exists st', s'. repeat split; assumption.
Defined.

(** ** Transform actions *)

Lemma with_rotation_same (s : ShapeConfig) : with_rotation (rotation s) s = s.
Proof. destruct s; reflexivity. Qed.

Lemma setShape_same (st : AppState) (s : ShapeConfig) :
  shape st = Some s -> setShape (fun _ => Some s) st = st.
Proof. destruct st; simpl; intros ->; reflexivity. Qed.

(** Four quarter turns of a rotation in [0, 360) add up to a full turn. *)
Lemma four_turns (r : Z) :
  (0 <= r < 360)%Z ->
  Z.rem (Z.rem (Z.rem (Z.rem (r + 90) 360 + 90) 360 + 90) 360 + 90) 360 = r.
Proof.
  intros Hr. Z.to_euclidean_division_equations. lia.
Qed.

(** The rotations of the data model are kept by [rotateShape], and the
    generator starts from one of them. *)
Lemma rotateShape_quarterTurn (st : AppState) (s : ShapeConfig) :
  shape st = Some s -> quarterTurn (rotation s) ->
  exists s', shape (rotateShape st) = Some s' /\ quarterTurn (rotation s').
Proof.
  intros Hs Hq. unfold rotateShape, setShape; simpl. rewrite Hs.
  eexists. split; [reflexivity|]. simpl.
  unfold quarterTurn in *. simpl in *.
  destruct Hq as [<-|[<-|[<-|[<-|[]]]]]; simpl; tauto.
Qed.

(** C7. Rotation arithmetic: [rotateShape] stores a shape whose [rotation]
    is [(rotation + 90) % 360] and whose other fields are the ones it had;
    for a rotation in [0, 360), so for each of 0, 90, 180 and 270, that is
    [(rotation + 90) mod 360] and four calls in sequence give back the state
    they started from; [flipHorizontal] stores a shape whose [flipX] is
    negated, and [flipVertical] one whose [flipY] is negated, every other
    field, the rotation among them, being the one it had; and none of the
    three touches the rest of the state. *)
Theorem transform_actions (st : AppState) (s : ShapeConfig) :
  shape st = Some s ->
  shape (rotateShape st) =
    Some {| vertices := vertices s; points := points s; color := color s;
            rotation := Z.rem (rotation s + 90) 360;
            flipX := flipX s; flipY := flipY s |} /\
  ((0 <= rotation s < 360)%Z ->
     Z.rem (rotation s + 90) 360 = ((rotation s + 90) mod 360)%Z /\
     rotateShape (rotateShape (rotateShape (rotateShape st))) = st) /\
  shape (flipHorizontal st) =
    Some {| vertices := vertices s; points := points s; color := color s;
            rotation := rotation s;
            flipX := negb (flipX s); flipY := flipY s |} /\
  shape (flipVertical st) =
    Some {| vertices := vertices s; points := points s; color := color s;
            rotation := rotation s;
            flipX := flipX s; flipY := negb (flipY s) |} /\
  (forall action,
      action = rotateShape \/ action = flipHorizontal \/ action = flipVertical ->
      isInteracting (action st) = isInteracting st /\
      mode (action st) = mode st /\
      lastPos (action st) = lastPos st).
Proof.
  intros Hs.
  split; [unfold rotateShape, setShape; simpl; now rewrite Hs|].
  split.
  - intros Hr. split; [apply Z.rem_mod_nonneg; lia|].
    rewrite <- (setShape_same st s Hs) at 2.
    unfold rotateShape, setShape; simpl. rewrite Hs.
    unfold with_rotation at 1; simpl.
    rewrite (four_turns _ Hr).
    destruct s; reflexivity.
  - split; [unfold flipHorizontal, setShape; simpl; now rewrite Hs|].
    split; [unfold flipVertical, setShape; simpl; now rewrite Hs|].
    intros action [-> | [-> | ->]]; repeat split.
Qed.

Lemma transform_actions_witness :
  shape (rotateShape (noHistory (plainShape scenarioVertices))) =
    Some {| vertices := scenarioVertices; points := []; color := None;
            rotation := 90; flipX := false; flipY := false |} /\
  shape (flipHorizontal (noHistory (plainShape scenarioVertices))) =
    Some {| vertices := scenarioVertices; points := []; color := None;
            rotation := 0; flipX := true; flipY := false |} /\
  rotateShape (rotateShape (rotateShape (rotateShape
    (noHistory (plainShape scenarioVertices))))) =
    noHistory (plainShape scenarioVertices).
Proof.
  destruct (transform_actions (noHistory (plainShape scenarioVertices))
              (plainShape scenarioVertices) eq_refl) as (Hrot & Hfour & Hflip & _).
  split; [exact Hrot|]. split; [exact Hflip|].
  apply Hfour. simpl. lia.
Defined.

(** ** generateRandomShape *)

(** The loop pushes one vertex per iteration, in order, each from the next
    draw of the random source. *)
Lemma pushVertices_spec (count : nat) :
  forall (i numPoints : Z) (centerX centerY baseRadius : R)
         (acc : list Vertex) (g : RandomSource),
    pushVertices count i numPoints centerX centerY baseRadius acc g =
      (acc ++
       map (fun k : nat =>
              let angle := IZR (i + Z.of_nat k) / IZR numPoints * PI * 2 in
              let radius := vertexRadius baseRadius (g k) in
              {| x := centerX + cos angle * radius;
                 y := centerY + sin angle * radius |})
           (seq 0 count),
       fun k : nat => g (count + k)%nat).
Proof.
  induction count as [|count IH]; intros i numPoints cx cy bR acc g.
  - simpl. now rewrite app_nil_r.
  - cbn [pushVertices Math_random]. rewrite IH.
    f_equal.
    rewrite <- app_assoc. f_equal.
    cbn [seq map app]. rewrite <- seq_shift, map_map.
    unfold Math_PI, Math_cos, Math_sin.
    f_equal.
    + now rewrite Z.add_0_r.
    + apply map_ext. intros k. cbv zeta.
      now replace (i + 1 + Z.of_nat k)%Z with (i + Z.of_nat (S k))%Z by lia.
Qed.

(** The vertex count drawn from [u] in [0, 1). *)
Lemma numPoints_range (u : R) :
  0 <= u < 1 -> (6 <= Zfloor (u * 4) + 6 <= 9)%Z.
Proof.
  intros Hu.
  assert (H0 : (0 <= Zfloor (u * 4))%Z) by (apply Zfloor_lub; simpl; lra).
  assert (H4 : (Zfloor (u * 4) < 4)%Z).
  { apply lt_IZR. generalize (Zfloor_bound (u * 4)). lra. }
  lia.
Qed.

(** The palette index drawn from [u] in [0, 1) is in range: the colour is
    never [undefined]. *)
Lemma blobColors_defined (u : R) :
  0 <= u < 1 ->
  exists c,
    array_get blobColors (Math_floor (u * IZR (Z.of_nat (length blobColors)))) = Some c.
Proof.
  intros Hu. apply array_get_in_range. unfold Math_floor. simpl length.
  change (IZR (Z.of_nat 7)) with 7.
  split.
  - apply Zfloor_lub; simpl; lra.
  - apply lt_IZR. generalize (Zfloor_bound (u * 7)).
    change (IZR (Z.of_nat 7)) with 7. lra.
Qed.

(** What [generateRandomShape] hands to [setShape], written out. *)
Lemma generateRandomShape_result (g : RandomSource) :
  let n := (Zfloor (g 0%nat * 4) + 6)%Z in
  exists pts,
    generateRandomShape g =
      Normal
        ({| vertices :=
              map (fun k : nat =>
                     let angle := IZR (Z.of_nat k) / IZR n * PI * 2 in
                     let radius := vertexRadius (CANVAS_SIZE * (25 / 100)) (g (S k)) in
                     {| x := CANVAS_SIZE / 2 + cos angle * radius;
                        y := CANVAS_SIZE / 2 + sin angle * radius |})
                  (seq 0 (Z.to_nat n));
            points := pts;
            color := array_get blobColors
                       (Math_floor (g (S (Z.to_nat n)) * IZR (Z.of_nat (length blobColors))));
            rotation := 0;
            flipX := false;
            flipY := false |},
         fun k : nat => g (S (Z.to_nat n + S k))).
Proof.
  intros n.
  unfold generateRandomShape. cbn [Math_random]. unfold Math_floor. fold n.
  rewrite pushVertices_spec. rewrite Z.sub_0_r. cbn [app].
  match goal with
  | |- context [computeBezierPoints ?vs] =>
      destruct (computeBezierPoints_total vs) as (pts & Hpts); rewrite Hpts
  end.
  exists pts. cbn [bind].
  rewrite Nat.add_0_r.
  reflexivity.
Qed.

Lemma nth_error_map_seq {A : Type} (f : nat -> A) (len : nat) :
  forall (start i : nat),
    (i < len)%nat -> nth_error (map f (seq start len)) i = Some (f (start + i)%nat).
Proof.
  induction len as [|len IH]; intros start i Hi; [lia|].
  destruct i as [|i]; simpl.
  - now rewrite Nat.add_0_r.
  - rewrite IH by lia. f_equal. f_equal. lia.
Qed.

(** The radius of a vertex drawn from [u] in [0, 1). *)
Lemma vertexRadius_range (u : R) :
  0 <= u < 1 -> 60 <= vertexRadius (CANVAS_SIZE * (25 / 100)) u < 240.
Proof. intros Hu. unfold vertexRadius, CANVAS_SIZE. lra. Qed.

(** C6. Shape generation: with [u0] the first draw of the random source, in
    [0, 1), the generator returns normally a shape of [n = floor (u0 * 4) + 6]
    vertices, where [n] is one of 6, 7, 8, 9 and each of the four values is
    taken on a quarter of the unit interval; vertex [i] lies at the angle
    [(i / n) * 2 PI] around the centre [(S / 2, S / 2)], [S = 600], at the
    radius [baseRadius + (u - 0.5) * baseRadius * 1.2], where
    [baseRadius = 0.25 * S] and [u] in [0, 1) is the draw after the previous
    vertex's; and the shape has [rotation = 0], [flipX = false],
    [flipY = false]. *)
Theorem generateRandomShape_spec (g : RandomSource) :
  (forall k, 0 <= g k < 1) ->
  let size := 600 in
  let baseRadius := 25 / 100 * size in
  let n := (Zfloor (g 0%nat * 4) + 6)%Z in
  exists s g',
    generateRandomShape g = Normal (s, g') /\
    (6 <= n <= 9)%Z /\
    (forall j : Z, (n = 6 + j)%Z <-> IZR j / 4 <= g 0%nat < (IZR j + 1) / 4) /\
    length (vertices s) = Z.to_nat n /\
    (forall i : nat,
        (i < Z.to_nat n)%nat ->
        let u := g (S i) in
        let angle := IZR (Z.of_nat i) / IZR n * (2 * PI) in
        let radius := baseRadius + (u - 5 / 10) * baseRadius * (12 / 10) in
        nth_error (vertices s) i =
          Some {| x := size / 2 + cos angle * radius;
                  y := size / 2 + sin angle * radius |}) /\
    rotation s = 0%Z /\ flipX s = false /\ flipY s = false.
Proof.
  intros Hg size baseRadius n.
  destruct (generateRandomShape_result g) as (pts & Hgen). fold n in Hgen.
  do 2 eexists. split; [exact Hgen|]. cbn [vertices rotation flipX flipY].
  split; [apply numPoints_range, Hg|].
  split.
  { intros j. unfold n. split.
    - intros Hj. assert (Hfl : Zfloor (g 0%nat * 4) = j) by lia.
      generalize (Zfloor_bound (g 0%nat * 4)). rewrite Hfl. lra.
    - intros Hj. assert (Hfl : Zfloor (g 0%nat * 4) = j) by (apply Zfloor_eq; lra).
      lia. }
  split; [now rewrite length_map, length_seq|].
  split; [|repeat split].
  intros i Hi. cbv zeta.
  rewrite nth_error_map_seq by exact Hi. cbn [Nat.add].
  replace (IZR (Z.of_nat i) / IZR n * PI * 2)
    with (IZR (Z.of_nat i) / IZR n * (2 * PI)) by ring.
  f_equal. unfold vertexRadius, CANVAS_SIZE, baseRadius, size.
  apply vertex_eq; cbn [x y]; ring.
Qed.

Lemma generateRandomShape_spec_witness :
  exists s g',
    generateRandomShape halfSource = Normal (s, g') /\
    length (vertices s) = 8%nat /\
    rotation s = 0%Z /\ flipX s = false /\ flipY s = false.
Proof.
  assert (Hg : forall k, 0 <= halfSource k < 1) by (intros k; unfold halfSource; lra).
  destruct (generateRandomShape_spec halfSource Hg)
    as (s & g' & Hgen & _ & _ & Hlen & _ & Hrot & Hfx & Hfy).
  exists s, g'. split; [exact Hgen|]. split; [|tauto].
  rewrite Hlen.
  replace (Zfloor (halfSource 0%nat * 4)) with 2%Z; [reflexivity|].
  symmetry. apply Zfloor_eq. unfold halfSource. simpl. lra.
Defined.

(** C10, as amended. Generated-vertex bounds: with the arithmetic read
    exactly, over the reals, the radius of a vertex, from a draw in [0, 1),
    lies in [0.4 * baseRadius, 1.6 * baseRadius) = [60, 240), so it is never
    zero or negative; and every coordinate of every vertex of the generated
    shape lies in [S / 2 - 240, S / 2 + 240] = [60, 540], strictly inside
    the canvas of side 600. *)
Theorem generateRandomShape_bounds (g : RandomSource) :
  (forall k, 0 <= g k < 1) ->
  let baseRadius := CANVAS_SIZE * (25 / 100) in
  (forall u, 0 <= u < 1 ->
     4 / 10 * baseRadius <= vertexRadius baseRadius u < 16 / 10 * baseRadius /\
     60 <= vertexRadius baseRadius u < 240 /\
     0 < vertexRadius baseRadius u) /\
  exists s g',
    generateRandomShape g = Normal (s, g') /\
    forall v, In v (vertices s) ->
      (CANVAS_SIZE / 2 - 240 <= x v <= CANVAS_SIZE / 2 + 240 /\
       CANVAS_SIZE / 2 - 240 <= y v <= CANVAS_SIZE / 2 + 240) /\
      (60 <= x v <= 540 /\ 60 <= y v <= 540) /\
      (0 < x v < CANVAS_SIZE /\ 0 < y v < CANVAS_SIZE).
Proof.
  intros Hg baseRadius. split.
  { intros u Hu. generalize (vertexRadius_range u Hu).
    unfold baseRadius, vertexRadius, CANVAS_SIZE. lra. }
  destruct (generateRandomShape_result g) as (pts & Hgen).
  do 2 eexists. split; [exact Hgen|]. cbn [vertices].
  intros v Hv. apply in_map_iff in Hv as (k & <- & _). cbv zeta. cbn [x y].
  generalize (vertexRadius_range (g (S k)) (Hg (S k))).
  set (r := vertexRadius _ _).
  match goal with
  | |- context [cos ?a] => generalize (COS_bound a) (SIN_bound a);
                           set (c := cos a); set (s := sin a)
  end.
  unfold CANVAS_SIZE. intros Hc Hs Hr.
  assert (Hcr : - r <= c * r <= r) by nra.
  assert (Hsr : - r <= s * r <= r) by nra.
  lra.
Qed.

Lemma generateRandomShape_bounds_witness :
  exists s g',
    generateRandomShape halfSource = Normal (s, g') /\
    forall v, In v (vertices s) -> 60 <= x v <= 540 /\ 60 <= y v <= 540.
Proof.
  assert (Hg : forall k, 0 <= halfSource k < 1) by (intros k; unfold halfSource; lra).
  destruct (generateRandomShape_bounds halfSource Hg) as (_ & s & g' & Hgen & Hb).
  exists s, g'. split; [exact Hgen|].
  intros v Hv. exact (proj1 (proj2 (Hb v Hv))).
Defined.


(** In doubles the upper end is not excluded: at the largest draw below 1 the
    radius rounds up to 240 itself. *)
Lemma radius_reaches_240_in_binary64 :
  let baseRadius := (Binary64.CANVAS_SIZE * 0.25)%float in
  (0 <=? Binary64.lastDraw)%float = true /\
  (Binary64.lastDraw <? 1)%float = true /\
  Binary64.vertexRadius baseRadius Binary64.lastDraw = 240%float /\
  (Binary64.vertexRadius baseRadius Binary64.lastDraw <? 1.6 * baseRadius)%float = false.
Proof.
  cbv zeta. repeat split; vm_compute; reflexivity.
Qed.

(** * Further properties of the code *)

(** ** The two coordinate spaces *)

Lemma cos2_sin2 (a : R) : cos a ^ 2 = 1 - sin a ^ 2.
Proof. generalize (sin2_cos2 a). unfold Rsqr. lra. Qed.

(** Polynomial identities in the cosine [c] and the sine [s] of one angle,
    given [H : c ^ 2 = 1 - s ^ 2]. *)
Ltac trig_ring H :=
  ring_simplify; rewrite ?H; ring_simplify; rewrite ?H; ring.

(** [transformCoords] written out: turn back about the centre, then flip
    about the centre. *)
Lemma transformCoords_formula (shape : ShapeConfig) (p : Vertex) :
  let a := IZR (rotation shape) * PI / 180 in
  transformCoords shape p =
    {| x := (if flipX shape then -1 else 1)
            * (cos a * (x p - 300) + sin a * (y p - 300)) + 300;
       y := (if flipY shape then -1 else 1)
            * (cos a * (y p - 300) - sin a * (x p - 300)) + 300 |}.
Proof.
  intros a.
  unfold transformCoords, Math_cos, Math_sin, Math_PI, CANVAS_SIZE.
  replace (- IZR (rotation shape) * PI / 180) with (- a) by (unfold a; field).
  rewrite cos_neg, sin_neg.
  apply vertex_eq; simpl; destruct (flipX shape), (flipY shape); field.
Qed.

(** [transformCoords] keeps squared distances. *)
Lemma transformCoords_dist2 (shape : ShapeConfig) (p q : Vertex) :
  (x (transformCoords shape q) - x (transformCoords shape p)) ^ 2 +
  (y (transformCoords shape q) - y (transformCoords shape p)) ^ 2 =
  (x q - x p) ^ 2 + (y q - y p) ^ 2.
Proof.
  rewrite !transformCoords_formula. cbn [x y].
  pose proof (cos2_sin2 (IZR (rotation shape) * PI / 180)) as H.
  set (c := cos _) in *. set (s := sin _) in *.
  destruct (flipX shape), (flipY shape); trig_ring H.
Qed.

(** The squared distance from a vertex to the cursor in shape space is the
    squared distance from the painted vertex to the cursor on the canvas. *)
Lemma screen_dist2 (shape : ShapeConfig) (coords v : Vertex) :
  (x v - x (transformCoords shape coords)) ^ 2 +
  (y v - y (transformCoords shape coords)) ^ 2 =
  (x (renderPoint shape v) - x coords) ^ 2 +
  (y (renderPoint shape v) - y coords) ^ 2.
Proof.
  rewrite transformCoords_formula, renderPoint_formula. cbn [x y].
  pose proof (cos2_sin2 (IZR (rotation shape) * PI / 180)) as H.
  set (c := cos _) in *. set (s := sin _) in *.
  destruct (flipX shape), (flipY shape); trig_ring H.
Qed.

(** A displacement by a multiple of the cursor's movement in shape space is
    painted as the same multiple of its movement on the canvas. *)
Lemma renderPoint_displaced (shape : ShapeConfig) (coords last v : Vertex) (f : R) :
  renderPoint shape
    {| x := x v + (x (transformCoords shape coords) - x (transformCoords shape last)) * f;
       y := y v + (y (transformCoords shape coords) - y (transformCoords shape last)) * f |} =
  {| x := x (renderPoint shape v) + (x coords - x last) * f;
     y := y (renderPoint shape v) + (y coords - y last) * f |}.
Proof.
  rewrite !transformCoords_formula, !renderPoint_formula. cbn [x y].
  pose proof (cos2_sin2 (IZR (rotation shape) * PI / 180)) as H.
  set (c := cos _) in *. set (s := sin _) in *.
  apply vertex_eq; cbn [x y];
    destruct (flipX shape), (flipY shape); trig_ring H.
Qed.

(** X1. With the arithmetic read over the reals, [transformCoords] is an
    isometry: the distance between the images of two points is the distance
    between the points, whatever the rotation and the flips. *)
Theorem transformCoords_isometry (shape : ShapeConfig) (p q : Vertex) :
  liquifyDist (transformCoords shape p) (transformCoords shape q) = liquifyDist p q.
Proof.
  unfold liquifyDist, Math_sqrt, Math_pow.
  now rewrite transformCoords_dist2.
Qed.

(** X2. With the arithmetic read over the reals, the renderer's transform
    undoes [transformCoords]: mapping a canvas point to shape space and
    painting it gives the canvas point again, so the two maps are inverse
    bijections. *)
Theorem renderPoint_transformCoords (shape : ShapeConfig) (p : Vertex) :
  renderPoint shape (transformCoords shape p) = p.
Proof.
  rewrite renderPoint_formula, transformCoords_formula. cbn [x y].
  pose proof (cos2_sin2 (IZR (rotation shape) * PI / 180)) as H.
  set (c := cos _) in *. set (s := sin _) in *.
  apply vertex_eq; cbn [x y];
    destruct (flipX shape), (flipY shape); trig_ring H.
Qed.

(** ** The liquify step seen on the canvas *)

Lemma liquifyDist_nonneg (p q : Vertex) : 0 <= liquifyDist p q.
Proof. unfold liquifyDist, Math_sqrt. apply sqrt_pos. Qed.

Lemma liquifyDist_screen (shape : ShapeConfig) (coords v : Vertex) :
  liquifyDist (transformCoords shape coords) v = liquifyDist coords (renderPoint shape v).
Proof.
  unfold liquifyDist, Math_sqrt, Math_pow.
  now rewrite screen_dist2.
Qed.

(** The force of the brush on a vertex it reaches. *)
Lemma force_range (dist : R) :
  0 <= dist < 60 -> 0 < (1 - dist / 60) * (8 / 10) <= 8 / 10.
Proof. intros H. lra. Qed.

(** X3. With the arithmetic read over the reals, liquify follows the cursor
    on the canvas: a vertex is moved exactly
    when the point painted for it is less than 60 from the cursor on the
    canvas, and then its painted point moves by the cursor's movement on the
    canvas times [(1 - d / 60) * 0.8], [d] being that distance, whatever the
    rotation and the flips of the shape. *)
Theorem liquify_on_screen (shape : ShapeConfig) (coords last v : Vertex) (i : nat) :
  nth_error (vertices shape) i = Some v ->
  let d := liquifyDist coords (renderPoint shape v) in
  exists v',
    nth_error (newVertices shape coords last) i = Some v' /\
    (d >= 60 -> v' = v) /\
    (d < 60 ->
     renderPoint shape v' =
       {| x := x (renderPoint shape v) + (x coords - x last) * ((1 - d / 60) * (8 / 10));
          y := y (renderPoint shape v) + (y coords - y last) * ((1 - d / 60) * (8 / 10)) |}).
Proof.
  intros Hv d.
  rewrite newVertices_nth, Hv. cbn [option_map].
  eexists. split; [reflexivity|].
  unfold liquifyVertex. rewrite liquifyDist_screen. fold d.
  unfold LIQUIFY_RADIUS, LIQUIFY_STRENGTH.
  destruct (Rlt_dec d 60) as [Hlt|Hge].
  - split; [intros Hd; lra|]. intros _. cbv zeta. apply renderPoint_displaced.
  - split; [reflexivity|]. intros Hd. lra.
Qed.

Lemma liquify_on_screen_witness :
  exists v',
    nth_error
      (newVertices (plainShape scenarioVertices)
         {| x := 460; y := 150 |} {| x := 450; y := 150 |}) 1 = Some v' /\
    (liquifyDist {| x := 460; y := 150 |}
       (renderPoint (plainShape scenarioVertices) {| x := 600; y := 300 |}) >= 60 ->
     v' = {| x := 600; y := 300 |}).
Proof.
  destruct (liquify_on_screen (plainShape scenarioVertices)
              {| x := 460; y := 150 |} {| x := 450; y := 150 |}
              {| x := 600; y := 300 |} 1 eq_refl) as (v' & Hv' & Hfar & _).
  exists v'. split; [exact Hv' | exact Hfar].
Defined.

(** X4. With the arithmetic read over the reals, liquify is damped: one step
    moves no vertex farther than 0.8 times
    the distance the cursor moved on the canvas, and a step whose cursor
    did not move leaves every vertex where it was. *)
Theorem liquify_damped (shape : ShapeConfig) (coords last v : Vertex) (i : nat) :
  nth_error (vertices shape) i = Some v ->
  exists v',
    nth_error (newVertices shape coords last) i = Some v' /\
    liquifyDist v v' <= 8 / 10 * liquifyDist last coords /\
    (coords = last -> v' = v).
Proof.
  intros Hv.
  rewrite newVertices_nth, Hv. cbn [option_map].
  eexists. split; [reflexivity|].
  pose proof (transformCoords_dist2 shape last coords) as HD.
  set (ldx := x (transformCoords shape coords) - x (transformCoords shape last)) in *.
  set (ldy := y (transformCoords shape coords) - y (transformCoords shape last)) in *.
  pose proof (liquifyDist_nonneg last coords) as Hpos.
  unfold liquifyVertex, LIQUIFY_RADIUS, LIQUIFY_STRENGTH.
  pose proof (liquifyDist_nonneg (transformCoords shape coords) v) as Hdist.
  set (dist := liquifyDist (transformCoords shape coords) v) in *.
  destruct (Rlt_dec dist 60) as [Hlt|Hge].
  - cbv zeta. set (f := (1 - dist / 60) * (8 / 10)).
    assert (Hf : 0 < f <= 8 / 10) by (apply force_range; lra).
    split.
    + unfold liquifyDist at 1, Math_sqrt, Math_pow. cbn [x y].
      replace ((x v + ldx * f - x v) ^ 2 + (y v + ldy * f - y v) ^ 2)
        with (f * f * (ldx ^ 2 + ldy ^ 2)) by ring.
      rewrite HD.
      rewrite sqrt_mult by nra.
      rewrite sqrt_square by lra.
      unfold liquifyDist, Math_sqrt, Math_pow in *.
      apply Rmult_le_compat_r; lra.
    + intros ->. unfold ldx, ldy. apply vertex_eq; cbn [x y]; ring.
  - split; [|reflexivity].
    unfold liquifyDist at 1, Math_sqrt, Math_pow.
    replace ((x v - x v) ^ 2 + (y v - y v) ^ 2) with 0 by ring.
    rewrite sqrt_0. lra.
Qed.

Lemma liquify_damped_witness :
  exists v',
    nth_error
      (newVertices (plainShape scenarioVertices)
         {| x := 460; y := 150 |} {| x := 450; y := 150 |}) 0 = Some v' /\
    liquifyDist {| x := 450; y := 150 |} v' <=
      8 / 10 * liquifyDist {| x := 450; y := 150 |} {| x := 460; y := 150 |}.
Proof.
  destruct (liquify_damped (plainShape scenarioVertices)
              {| x := 460; y := 150 |} {| x := 450; y := 150 |}
              {| x := 450; y := 150 |} 0 eq_refl) as (v' & Hv' & Hle & _).
  exists v'. split; [exact Hv' | exact Hle].
Defined.

(** ** The transform actions seen on the canvas *)

(** The angle after [rotateShape] is a quarter turn further, up to a full
    turn. *)
Lemma quarter_turn_trig (r : Z) :
  (0 <= r < 360)%Z ->
  cos (IZR (Z.rem (r + 90) 360) * PI / 180) = - sin (IZR r * PI / 180) /\
  sin (IZR (Z.rem (r + 90) 360) * PI / 180) = cos (IZR r * PI / 180).
Proof.
  intros Hr. set (a := IZR r * PI / 180).
  destruct (Z_lt_le_dec r 270) as [Hlt|Hge].
  - rewrite Z.rem_small by lia.
    replace (IZR (r + 90) * PI / 180) with (a + PI / 2)
      by (unfold a; rewrite plus_IZR; field).
    rewrite cos_plus, sin_plus, cos_PI2, sin_PI2. split; ring.
  - assert (Hrem : Z.rem (r + 90) 360 = (r - 270)%Z)
      by (Z.to_euclidean_division_equations; lia).
    rewrite Hrem.
    replace (IZR (r - 270) * PI / 180) with (a + PI / 2 - 2 * PI)
      by (unfold a; rewrite minus_IZR; field).
    rewrite cos_minus, sin_minus, cos_2PI, sin_2PI.
    rewrite cos_plus, sin_plus, cos_PI2, sin_PI2. split; ring.
Qed.

(** X5. With the arithmetic read over the reals, [rotateShape] turns the
    painted shape a quarter turn clockwise about
    the centre of the canvas: the point painted at [(px, py)] before is
    painted at [(600 - py, px)] after. *)
Theorem rotateShape_on_screen (st : AppState) (s : ShapeConfig) (p : Vertex) :
  shape st = Some s ->
  (0 <= rotation s < 360)%Z ->
  exists s',
    shape (rotateShape st) = Some s' /\
    renderPoint s' p =
      {| x := CANVAS_SIZE - y (renderPoint s p); y := x (renderPoint s p) |}.
Proof.
  intros Hs Hr.
  unfold rotateShape, setShape; cbn [shape]. rewrite Hs.
  eexists. split; [reflexivity|].
  rewrite !renderPoint_formula. cbn [rotation flipX flipY with_rotation x y].
  destruct (quarter_turn_trig (rotation s) Hr) as [-> ->].
  unfold CANVAS_SIZE. apply vertex_eq; cbn [x y]; ring.
Qed.

Lemma rotateShape_on_screen_witness :
  exists s',
    shape (rotateShape (noHistory (plainShape scenarioVertices))) = Some s' /\
    renderPoint s' {| x := 450; y := 150 |} =
      {| x := CANVAS_SIZE - y (renderPoint (plainShape scenarioVertices) {| x := 450; y := 150 |});
         y := x (renderPoint (plainShape scenarioVertices) {| x := 450; y := 150 |}) |}.
Proof.
  apply (rotateShape_on_screen (noHistory (plainShape scenarioVertices))
           (plainShape scenarioVertices) {| x := 450; y := 150 |} eq_refl).
  simpl. lia.
Defined.

Lemma half_turn_sin (r : Z) :
  r = 0%Z \/ r = 180%Z -> sin (IZR r * PI / 180) = 0.
Proof.
  intros [-> | ->].
  - replace (0 * PI / 180) with 0 by field. apply sin_0.
  - replace (180 * PI / 180) with PI by field. apply sin_PI.
Qed.

Lemma odd_quarter_cos (r : Z) :
  r = 90%Z \/ r = 270%Z -> cos (IZR r * PI / 180) = 0.
Proof.
  intros [-> | ->].
  - replace (90 * PI / 180) with (PI / 2) by field. apply cos_PI2.
  - replace (270 * PI / 180) with (3 * (PI / 2)) by field. apply cos_3PI2.
Qed.

(** X6. With the arithmetic read over the reals, what a flip does on the
    canvas depends on the rotation: with the
    shape turned by 0 or 180 degrees [flipHorizontal] mirrors the painted
    shape left to right and [flipVertical] top to bottom; with the shape
    turned by 90 or 270 degrees it is the other way round. *)
Theorem flips_on_screen (st : AppState) (s : ShapeConfig) (p : Vertex) :
  shape st = Some s ->
  let q := renderPoint s p in
  exists sh sv,
    shape (flipHorizontal st) = Some sh /\
    shape (flipVertical st) = Some sv /\
    (rotation s = 0%Z \/ rotation s = 180%Z ->
     renderPoint sh p = {| x := CANVAS_SIZE - x q; y := y q |} /\
     renderPoint sv p = {| x := x q; y := CANVAS_SIZE - y q |}) /\
    (rotation s = 90%Z \/ rotation s = 270%Z ->
     renderPoint sh p = {| x := x q; y := CANVAS_SIZE - y q |} /\
     renderPoint sv p = {| x := CANVAS_SIZE - x q; y := y q |}).
Proof.
  intros Hs q. unfold q.
  unfold flipHorizontal, flipVertical, setShape; cbn [shape]. rewrite Hs.
  do 2 eexists. split; [reflexivity|]. split; [reflexivity|].
  rewrite !renderPoint_formula.
  cbn [rotation flipX flipY with_flipX with_flipY x y].
  unfold CANVAS_SIZE.
  split; intros Hr.
  - rewrite (half_turn_sin _ Hr).
    split; apply vertex_eq; cbn [x y];
      destruct (flipX s), (flipY s); cbn [negb]; ring.
  - rewrite (odd_quarter_cos _ Hr).
    split; apply vertex_eq; cbn [x y];
      destruct (flipX s), (flipY s); cbn [negb]; ring.
Qed.

Lemma flips_on_screen_witness :
  exists sh,
    shape (flipHorizontal (noHistory (plainShape scenarioVertices))) = Some sh /\
    renderPoint sh {| x := 450; y := 150 |} =
      {| x := CANVAS_SIZE - x (renderPoint (plainShape scenarioVertices) {| x := 450; y := 150 |});
         y := y (renderPoint (plainShape scenarioVertices) {| x := 450; y := 150 |}) |}.
Proof.
  destruct (flips_on_screen (noHistory (plainShape scenarioVertices))
              (plainShape scenarioVertices) {| x := 450; y := 150 |} eq_refl)
    as (sh & sv & Hsh & _ & H0 & _).
  exists sh. split; [exact Hsh|].
  apply H0. left. reflexivity.
Defined.

(** X7. The transform actions as operations on the state: each flip undoes
    itself, the two flips commute, and [rotateShape] commutes with both. *)
Theorem transform_actions_algebra (st : AppState) :
  flipHorizontal (flipHorizontal st) = st /\
  flipVertical (flipVertical st) = st /\
  flipHorizontal (flipVertical st) = flipVertical (flipHorizontal st) /\
  rotateShape (flipHorizontal st) = flipHorizontal (rotateShape st) /\
  rotateShape (flipVertical st) = flipVertical (rotateShape st).
Proof.
  destruct st as [[s|] interacting m lp].
  - destruct s as [vs pts col rot fx fy].
    unfold flipHorizontal, flipVertical, rotateShape, setShape, with_flipX, with_flipY,
      with_rotation; cbn.
    rewrite !negb_involutive. repeat split; reflexivity.
  - repeat split; reflexivity.
Qed.

(** ** More on computeBezierPoints *)

(** X8. With one or two vertices the handles collapse: the previous and the
    next neighbour are the same vertex, so both handles of every derived
    point lie on the point itself. *)
Theorem computeBezierPoints_degenerate (vs : list Vertex) (i : nat) (v : Vertex) :
  (length vs <= 2)%nat ->
  nth_error vs i = Some v ->
  exists pts,
    computeBezierPoints vs = Normal pts /\
    nth_error pts i =
      Some {| vertex := v; cp1x := x v; cp1y := y v; cp2x := x v; cp2y := y v |}.
Proof.
  intros Hn Hv.
  destruct (computeBezierPoints_total vs) as (pts & Hpts).
  exists pts. split; [exact Hpts|].
  destruct (computeBezierPoints_nth vs pts i v Hpts Hv) as (p & q & Hp & Hq & H).
  assert (Hi : (i < length vs)%nat) by (apply nth_error_Some; congruence).
  assert (Hidx : ((Z.of_nat i - 1 + Z.of_nat (length vs)) mod Z.of_nat (length vs) =
                  (Z.of_nat i + 1) mod Z.of_nat (length vs))%Z).
  { assert (Hcases : length vs = 1%nat \/ length vs = 2%nat) by lia.
    destruct Hcases as [-> | ->].
    - now rewrite !Z.mod_1_r.
    - assert (Hi2 : i = 0%nat \/ i = 1%nat) by lia.
      destruct Hi2 as [-> | ->]; reflexivity. }
  rewrite Hidx, Hq in Hp. injection Hp as <-.
  rewrite H. do 2 f_equal; ring.
Qed.

Lemma computeBezierPoints_degenerate_witness :
  exists pts,
    computeBezierPoints scenarioVertices = Normal pts /\
    nth_error pts 1 =
      Some {| vertex := {| x := 600; y := 300 |};
              cp1x := 600; cp1y := 300; cp2x := 600; cp2y := 300 |}.
Proof.
  apply (computeBezierPoints_degenerate scenarioVertices 1 {| x := 600; y := 300 |}).
  - simpl. lia.
  - reflexivity.
Defined.

(** X9. The deriver is local: the point derived at an index depends on the
    vertex at that index and on its two neighbours in the cycle only, so a
    change of any other vertex leaves it as it was. *)
Theorem computeBezierPoints_local (vs vs' : list Vertex) (i : nat) :
  length vs' = length vs ->
  (i < length vs)%nat ->
  let n := Z.of_nat (length vs) in
  (forall k : Z,
      k = ((Z.of_nat i - 1 + n) mod n)%Z \/ k = Z.of_nat i \/
      k = ((Z.of_nat i + 1) mod n)%Z ->
      array_get vs' k = array_get vs k) ->
  exists pts pts',
    computeBezierPoints vs = Normal pts /\
    computeBezierPoints vs' = Normal pts' /\
    nth_error pts' i = nth_error pts i.
Proof.
  intros Hlen Hi n Hsame.
  destruct (computeBezierPoints_total vs) as (pts & Hpts).
  destruct (computeBezierPoints_total vs') as (pts' & Hpts').
  exists pts, pts'. split; [exact Hpts|]. split; [exact Hpts'|].
  destruct (nth_error vs i) as [v|] eqn:Hv;
    [|apply nth_error_None in Hv; lia].
  assert (Hv' : nth_error vs' i = Some v).
  { rewrite <- !array_get_nat in *. rewrite Hsame by tauto. exact Hv. }
  destruct (computeBezierPoints_nth vs pts i v Hpts Hv) as (p & q & Hp & Hq & H).
  destruct (computeBezierPoints_nth vs' pts' i v Hpts' Hv') as (p' & q' & Hp' & Hq' & H').
  rewrite Hlen in Hp', Hq'. fold n in Hp, Hq, Hp', Hq'.
  rewrite Hsame in Hp', Hq' by tauto.
  rewrite Hp in Hp'. rewrite Hq in Hq'.
  injection Hp' as <-. injection Hq' as <-.
  now rewrite H, H'.
Qed.

Lemma computeBezierPoints_local_witness :
  exists pts pts',
    computeBezierPoints square = Normal pts /\
    computeBezierPoints dentedSquare = Normal pts' /\
    nth_error pts' 0 = nth_error pts 0.
Proof.
  apply (computeBezierPoints_local square dentedSquare 0).
  - reflexivity.
  - simpl. lia.
  - intros k [-> | [-> | ->]]; reflexivity.
Defined.

(** ** More on generateRandomShape *)

Lemma array_get_In {A : Type} (arr : list A) (i : Z) (a : A) :
  array_get arr i = Some a -> In a arr.
Proof.
  unfold array_get. destruct (i <? 0)%Z; [discriminate|].
  apply nth_error_In.
Qed.

(** The generated shape, with what its fields are. *)
Lemma generateRandomShape_fields (g : RandomSource) :
  (forall k, 0 <= g k < 1) ->
  let n := (Zfloor (g 0%nat * 4) + 6)%Z in
  exists s,
    generateRandomShape g = Normal (s, fun k : nat => g (S (Z.to_nat n + S k))) /\
    vertices s =
      map (fun k : nat =>
             let angle := IZR (Z.of_nat k) / IZR n * PI * 2 in
             let radius := vertexRadius (CANVAS_SIZE * (25 / 100)) (g (S k)) in
             {| x := CANVAS_SIZE / 2 + cos angle * radius;
                y := CANVAS_SIZE / 2 + sin angle * radius |})
          (seq 0 (Z.to_nat n)) /\
    computeBezierPoints (vertices s) = Normal (points s) /\
    (exists c, color s = Some c /\ In c blobColors) /\
    rotation s = 0%Z /\ flipX s = false /\ flipY s = false.
Proof.
  intros Hg n.
  unfold generateRandomShape. cbn [Math_random]. unfold Math_floor. fold n.
  rewrite pushVertices_spec. rewrite Z.sub_0_r. cbn [app].
  match goal with
  | |- context [computeBezierPoints ?vs] =>
      destruct (computeBezierPoints_total vs) as (pts & Hpts); rewrite Hpts
  end.
  cbn [bind]. rewrite Nat.add_0_r.
  eexists. split; [reflexivity|]. cbn [vertices points color rotation flipX flipY].
  split; [reflexivity|]. split; [exact Hpts|]. split; [|repeat split].
  destruct (blobColors_defined (g (S (Z.to_nat n))) (Hg _)) as (c & Hc).
  unfold Math_floor in Hc.
  exists c. split; [exact Hc|]. exact (array_get_In _ _ _ Hc).
Qed.

(** X10. The generated shape is complete: its control points are the ones
    derived from its vertices, one for each; its colour is one of the seven
    of the palette, never [undefined]; and the generator takes exactly
    [numPoints + 2] draws from the random source. *)
Theorem generateRandomShape_complete (g : RandomSource) :
  (forall k, 0 <= g k < 1) ->
  let n := (Zfloor (g 0%nat * 4) + 6)%Z in
  exists s g',
    generateRandomShape g = Normal (s, g') /\
    computeBezierPoints (vertices s) = Normal (points s) /\
    length (points s) = length (vertices s) /\
    (exists c, color s = Some c /\ In c blobColors) /\
    forall k : nat, g' k = g (Z.to_nat n + 2 + k)%nat.
Proof.
  intros Hg n.
  destruct (generateRandomShape_fields g Hg) as (s & Hgen & _ & Hpts & Hcol & _).
  fold n in Hgen.
  exists s. eexists. split; [exact Hgen|].
  split; [exact Hpts|].
  split; [exact (computeBezierPoints_length _ _ Hpts)|].
  split; [exact Hcol|].
  intros k. cbv beta. f_equal. lia.
Qed.

Lemma generateRandomShape_complete_witness :
  exists s g',
    generateRandomShape halfSource = Normal (s, g') /\
    length (points s) = length (vertices s) /\
    exists c, color s = Some c /\ In c blobColors.
Proof.
  assert (Hg : forall k, 0 <= halfSource k < 1) by (intros k; unfold halfSource; lra).
  destruct (generateRandomShape_complete halfSource Hg)
    as (s & g' & Hgen & _ & Hlen & Hcol & _).
  exists s, g'. repeat split; assumption.
Defined.

(** X11. With the arithmetic read over the reals, every generated vertex
    lies in a ring around the centre of the
    canvas: its distance from the centre is its radius, at least 60 and
    less than 240, so the blob always surrounds the centre. *)
Theorem generateRandomShape_ring (g : RandomSource) :
  (forall k, 0 <= g k < 1) ->
  exists s g',
    generateRandomShape g = Normal (s, g') /\
    forall v, In v (vertices s) ->
      60 <= liquifyDist {| x := CANVAS_SIZE / 2; y := CANVAS_SIZE / 2 |} v < 240.
Proof.
  intros Hg.
  destruct (generateRandomShape_fields g Hg) as (s & Hgen & Hvs & _).
  exists s. eexists. split; [exact Hgen|].
  intros v Hv. rewrite Hvs in Hv.
  apply in_map_iff in Hv as (k & <- & _). cbv zeta.
  pose proof (vertexRadius_range (g (S k)) (Hg (S k))) as Hr.
  set (r := vertexRadius _ _) in *.
  unfold liquifyDist, Math_sqrt, Math_pow. cbn [x y].
  match goal with
  | |- context [cos ?a] => pose proof (cos2_sin2 a) as H;
                           set (c := cos a) in *; set (sn := sin a) in *
  end.
  match goal with
  | |- _ <= sqrt ?e < _ => replace e with (r * r) by trig_ring H
  end.
  rewrite sqrt_square by lra. exact Hr.
Qed.

Lemma generateRandomShape_ring_witness :
  exists s g',
    generateRandomShape halfSource = Normal (s, g') /\
    forall v, In v (vertices s) ->
      60 <= liquifyDist {| x := CANVAS_SIZE / 2; y := CANVAS_SIZE / 2 |} v < 240.
Proof.
  apply (generateRandomShape_ring halfSource).
  intros k. unfold halfSource. lra.
Defined.

(** ** drawShape *)

Lemma shapeMatrix_identity (shape : ShapeConfig) :
  shapeMatrix identityMatrix shape = drawShape_transform shape.
Proof. reflexivity. Qed.

(** The loop appends one curve for each index, in order, and touches nothing
    but the path. *)
Lemma bezierSegments_spec (pts : list BezierPoint) (d : BezierPoint) (count : nat) :
  forall (i : nat) (ctx : Context2D),
    (i + count <= length pts)%nat ->
    bezierSegments count (Z.of_nat i) pts ctx =
      Normal {| ctx_state := ctx_state ctx;
                ctx_stack := ctx_stack ctx;
                ctx_path := ctx_path ctx ++
                            map (segmentFrom (ds_transform (ctx_state ctx)) pts d)
                                (seq i count);
                ctx_painted := ctx_painted ctx |}.
Proof.
  induction count as [|count IH]; intros i ctx Hi.
  - cbn [bezierSegments seq map]. rewrite app_nil_r. now destruct ctx.
  - cbn [bezierSegments].
    rewrite array_get_nat, (nth_error_nth' pts d) by lia. cbn [deref bind].
    assert (Hrem : Z.rem (Z.of_nat i + 1) (Z.of_nat (length pts)) =
                   Z.of_nat ((i + 1) mod length pts)).
    { rewrite Z.rem_mod_nonneg by lia.
      rewrite Nat2Z.inj_mod. f_equal. lia. }
    rewrite Hrem, array_get_nat.
    rewrite (nth_error_nth' pts d) by (apply Nat.mod_upper_bound; lia).
    cbn [deref bind].
    replace (Z.of_nat i + 1)%Z with (Z.of_nat (S i)) by lia.
    rewrite IH by lia.
    unfold bezierCurveTo, with_path. cbn [ctx_state ctx_stack ctx_path ctx_painted].
    rewrite <- app_assoc. reflexivity.
Qed.

(** What [drawShape] leaves in the context of a shape that has points. *)
Lemma drawShape_paints (s : ShapeConfig) (ctx : Context2D)
  (first : BezierPoint) (rest : list BezierPoint) :
  points s = first :: rest ->
  let m := shapeMatrix (ds_transform (ctx_state ctx)) s in
  let commands :=
    MoveTo (transformPoint m first) ::
    map (segmentFrom m (points s) first) (seq 0 (length (points s))) ++ [ClosePath] in
  let style :=
    match color s with
    | Some c => c
    | None => ds_fillStyle (ctx_state ctx)
    end in
  drawShape true true (Some s) ctx =
    Normal {| ctx_state := ctx_state ctx;
              ctx_stack := ctx_stack ctx;
              ctx_path := commands;
              ctx_painted :=
                ctx_painted ctx ++
                [ClearRect (ds_transform (ctx_state ctx)) 0 0 CANVAS_SIZE CANVAS_SIZE;
                 Fill commands style] |}.
Proof.
  intros Hpts m commands style.
  unfold drawShape. cbn [negb].
  rewrite Hpts at 1. cbn [array_get Z.ltb Z.compare Z.to_nat nth_error deref bind].
  rewrite (bezierSegments_spec (points s) first _ 0%nat) by (cbn; lia).
  cbn [bind].
  unfold commands, style, m, shapeMatrix.
  destruct (color s) as [c|];
    cbn; rewrite <- !app_assoc; reflexivity.
Qed.

(** Derived points have their handles mirrored about the point. *)
Lemma derived_handles (vs : list Vertex) (pts : list BezierPoint) (j : nat) (b : BezierPoint) :
  computeBezierPoints vs = Normal pts ->
  nth_error pts j = Some b ->
  cp1x b + cp2x b = 2 * x b /\ cp1y b + cp2y b = 2 * y b.
Proof.
  intros Hpts Hb.
  assert (Hj : (j < length vs)%nat).
  { rewrite <- (computeBezierPoints_length _ _ Hpts). apply nth_error_Some. congruence. }
  destruct (nth_error vs j) as [v|] eqn:Hv; [|apply nth_error_None in Hv; lia].
  destruct (computeBezierPoints_nth vs pts j v Hpts Hv) as (p & q & _ & _ & H).
  rewrite H in Hb. injection Hb as <-. simpl. split; lra.
Qed.

(** A transform keeps the point between its two handles. *)
Lemma transformPoint_handles (m : Matrix) (b : BezierPoint) :
  cp1x b + cp2x b = 2 * x b ->
  cp1y b + cp2y b = 2 * y b ->
  x (transformPoint m (handle1 b)) + x (transformPoint m (handle2 b)) =
    2 * x (transformPoint m b) /\
  y (transformPoint m (handle1 b)) + y (transformPoint m (handle2 b)) =
    2 * y (transformPoint m b).
Proof.
  intros Hx Hy. unfold transformPoint, handle1, handle2. cbn [x y].
  replace (cp2x b) with (2 * x b - cp1x b) by lra.
  replace (cp2y b) with (2 * y b - cp1y b) by lra.
  split; ring.
Qed.

(** X12. The path [drawShape] fills is one closed curve: under the default
    transform of the context it starts at the painted first point, has one
    cubic segment for each point, the segment from point [k] running to the
    next point of the cycle with the outgoing handle of the one and the
    incoming handle of the other, all painted by the renderer's transform,
    and the last segment ends at the starting point. *)
Theorem drawShape_closed_path (s : ShapeConfig) (ctx : Context2D) :
  ds_transform (ctx_state ctx) = identityMatrix ->
  points s <> [] ->
  let n := length (points s) in
  exists ctx' start segs style,
    drawShape true true (Some s) ctx = Normal ctx' /\
    ctx_painted ctx' =
      ctx_painted ctx ++
      [ClearRect identityMatrix 0 0 CANVAS_SIZE CANVAS_SIZE;
       Fill (MoveTo start :: segs ++ [ClosePath]) style] /\
    length segs = n /\
    (exists first, nth_error (points s) 0 = Some first /\ start = renderPoint s first) /\
    (forall k curr next,
        nth_error (points s) k = Some curr ->
        nth_error (points s) ((k + 1) mod n) = Some next ->
        nth_error segs k =
          Some (BezierCurveTo (renderPoint s (handle2 curr))
                              (renderPoint s (handle1 next))
                              (renderPoint s next))) /\
    (exists c1 c2, nth_error segs (n - 1) = Some (BezierCurveTo c1 c2 start)).
Proof.
  intros Hid Hne n.
  destruct (points s) as [|first rest] eqn:Hpts; [congruence|].
  pose proof (drawShape_paints s ctx first rest Hpts) as Hdraw.
  cbv zeta in Hdraw. rewrite Hid, shapeMatrix_identity in Hdraw.
  rewrite Hpts in Hdraw. fold n in Hdraw.
  do 4 eexists. split; [exact Hdraw|]. cbn [ctx_painted].
  split; [reflexivity|].
  split; [now rewrite length_map, length_seq|].
  split; [exists first; split; reflexivity|].
  split.
  - intros k curr next Hcurr Hnext.
    assert (Hk : (k < n)%nat) by (apply nth_error_Some; congruence).
    rewrite nth_error_map_seq by exact Hk. cbn [Nat.add].
    unfold segmentFrom. fold n.
    rewrite (nth_error_nth _ _ first Hcurr), (nth_error_nth _ _ first Hnext).
    reflexivity.
  - assert (Hn : n = S (length rest)) by reflexivity.
    rewrite nth_error_map_seq by lia. cbn [Nat.add].
    unfold segmentFrom. fold n.
    replace (n - 1 + 1)%nat with n by lia.
    rewrite Nat.Div0.mod_same. cbn [nth].
    do 2 eexists. reflexivity.
Qed.

Lemma drawShape_closed_path_witness :
  exists ctx' start segs style,
    drawShape true true (Some (derivedShape triangle)) freshContext = Normal ctx' /\
    ctx_painted ctx' =
      [ClearRect identityMatrix 0 0 CANVAS_SIZE CANVAS_SIZE;
       Fill (MoveTo start :: segs ++ [ClosePath]) style] /\
    length segs = 3%nat /\
    exists c1 c2, nth_error segs 2 = Some (BezierCurveTo c1 c2 start).
Proof.
  destruct (drawShape_closed_path (derivedShape triangle) freshContext eq_refl)
    as (ctx' & start & segs & style & Hdraw & Hpainted & Hlen & _ & _ & Hlast).
  - discriminate.
  - exists ctx', start, segs, style. repeat split; assumption.
Defined.

(** X13. With the arithmetic read over the reals, the filled curve is smooth
    at every point of a shape whose points
    are the derived ones: where one segment ends and the next begins, the
    end point is the midpoint of the handle that arrives and the handle that
    leaves, so the tangent has no corner there.  This holds under any
    transform of the context. *)
Theorem drawShape_smooth (s : ShapeConfig) (ctx : Context2D) :
  computeBezierPoints (vertices s) = Normal (points s) ->
  points s <> [] ->
  let n := length (points s) in
  exists ctx' start segs style,
    drawShape true true (Some s) ctx = Normal ctx' /\
    ctx_painted ctx' =
      ctx_painted ctx ++
      [ClearRect (ds_transform (ctx_state ctx)) 0 0 CANVAS_SIZE CANVAS_SIZE;
       Fill (MoveTo start :: segs ++ [ClosePath]) style] /\
    forall k c1 c2 e c1' c2' e',
      nth_error segs k = Some (BezierCurveTo c1 c2 e) ->
      nth_error segs ((k + 1) mod n) = Some (BezierCurveTo c1' c2' e') ->
      x c2 + x c1' = 2 * x e /\ y c2 + y c1' = 2 * y e.
Proof.
  intros Hderived Hne n.
  destruct (points s) as [|first rest] eqn:Hpts; [congruence|].
  pose proof (drawShape_paints s ctx first rest Hpts) as Hdraw.
  cbv zeta in Hdraw. rewrite Hpts in Hdraw. fold n in Hdraw.
  do 4 eexists. split; [exact Hdraw|]. cbn [ctx_painted].
  split; [reflexivity|].
  intros k c1 c2 e c1' c2' e' Hk Hk'.
  assert (Hn : (0 < n)%nat) by (unfold n; cbn; lia).
  assert (Hlt : (k < n)%nat).
  { match type of Hk with
    | nth_error ?l _ = _ =>
        assert (Hl : (k < length l)%nat) by (apply nth_error_Some; rewrite Hk; discriminate)
    end.
    now rewrite length_map, length_seq in Hl. }
  assert (Hj : ((k + 1) mod n < n)%nat) by (apply Nat.mod_upper_bound; lia).
  rewrite nth_error_map_seq in Hk by exact Hlt.
  rewrite nth_error_map_seq in Hk' by exact Hj.
  cbn [Nat.add] in Hk, Hk'. unfold segmentFrom in Hk, Hk'. fold n in Hk, Hk'.
  injection Hk as _ <- <-. injection Hk' as <- _ _.
  set (b := nth ((k + 1) mod n) (first :: rest) first).
  assert (Hb : nth_error (first :: rest) ((k + 1) mod n) = Some b)
    by (apply nth_error_nth'; exact Hj).
  destruct (derived_handles _ _ _ _ Hderived Hb) as [Hx Hy].
  exact (transformPoint_handles _ b Hx Hy).
Qed.

Lemma drawShape_smooth_witness :
  exists ctx' start segs style,
    drawShape true true (Some (derivedShape triangle)) freshContext = Normal ctx' /\
    ctx_painted ctx' =
      [ClearRect identityMatrix 0 0 CANVAS_SIZE CANVAS_SIZE;
       Fill (MoveTo start :: segs ++ [ClosePath]) style] /\
    forall c1 c2 e c1' c2' e',
      nth_error segs 2 = Some (BezierCurveTo c1 c2 e) ->
      nth_error segs 0 = Some (BezierCurveTo c1' c2' e') ->
      x c2 + x c1' = 2 * x e /\ y c2 + y c1' = 2 * y e.
Proof.
  destruct (drawShape_smooth (derivedShape triangle) freshContext eq_refl)
    as (ctx' & start & segs & style & Hdraw & Hpainted & Hsmooth).
  - discriminate.
  - exists ctx', start, segs, style. split; [exact Hdraw|]. split; [exact Hpainted|].
    intros c1 c2 e c1' c2' e'. exact (Hsmooth 2%nat c1 c2 e c1' c2' e').
Defined.

(** X14. [drawShape] gives the context back as it found it: when it returns,
    the transform, the fill style and the stack of saved states are the ones
    at entry, and it has either painted nothing or cleared the canvas
    rectangle and filled one path. *)
Theorem drawShape_restores (canvas context2d : bool) (shape : option ShapeConfig)
  (ctx ctx' : Context2D) :
  drawShape canvas context2d shape ctx = Normal ctx' ->
  ctx_state ctx' = ctx_state ctx /\
  ctx_stack ctx' = ctx_stack ctx /\
  (ctx' = ctx \/
   exists commands style,
     ctx_painted ctx' =
       ctx_painted ctx ++
       [ClearRect (ds_transform (ctx_state ctx)) 0 0 CANVAS_SIZE CANVAS_SIZE;
        Fill commands style]).
Proof.
  intros Hdraw.
  destruct shape as [s|]; [|injection Hdraw as <-; auto].
  destruct canvas; [|injection Hdraw as <-; auto].
  destruct context2d; [|injection Hdraw as <-; auto].
  destruct (points s) as [|first rest] eqn:Hpts.
  - exfalso. unfold drawShape in Hdraw. rewrite Hpts in Hdraw. discriminate Hdraw.
  - rewrite (drawShape_paints s ctx first rest Hpts) in Hdraw.
    injection Hdraw as <-. cbn [ctx_state ctx_stack ctx_painted].
    split; [reflexivity|]. split; [reflexivity|].
    right. do 2 eexists. reflexivity.
Qed.

Lemma drawShape_restores_witness :
  exists ctx',
    drawShape true true (Some (derivedShape triangle)) freshContext = Normal ctx' /\
    ctx_state ctx' = ctx_state freshContext /\
    ctx_stack ctx' = [].
Proof.
  destruct (drawShape_paints (derivedShape triangle) freshContext _ _ eq_refl) as [].
  eexists. split; [reflexivity|].
  destruct (drawShape_restores true true (Some (derivedShape triangle)) freshContext _ eq_refl)
    as (Hstate & Hstack & _).
  split; assumption.
Defined.

(** X15. [drawShape] throws exactly on a shape without points: with a canvas
    and a context, reading [points[0].x] of an empty [points] is the only
    failure, and it comes after the canvas was cleared. *)
Theorem drawShape_throws_iff_no_points (s : ShapeConfig) (ctx : Context2D) :
  drawShape true true (Some s) ctx = TypeError <-> points s = [].
Proof.
  split.
  - intros Hdraw. destruct (points s) as [|first rest] eqn:Hpts; [reflexivity|].
    rewrite (drawShape_paints s ctx first rest Hpts) in Hdraw. discriminate Hdraw.
  - intros Hpts. unfold drawShape. rewrite Hpts. reflexivity.
Qed.

(** ** The page as a whole *)

Lemma wellFormed_same_shape (st st' : AppState) :
  shape st' = shape st -> wellFormed st -> wellFormed st'.
Proof. unfold wellFormed. intros ->. auto. Qed.

(** The two ways [handleMouseMove] can go. *)
Lemma handleMouseMove_cases (env : Env) (coords : Vertex) (st : AppState) :
  (exists st', handleMouseMove env coords st = Normal st' /\ shape st' = shape st) \/
  (exists s last pts,
      shape st = Some s /\
      computeBezierPoints (newVertices s coords last) = Normal pts /\
      handleMouseMove env coords st =
        Normal {| shape := Some {| vertices := newVertices s coords last;
                                   points := pts;
                                   color := color s;
                                   rotation := rotation s;
                                   flipX := flipX s;
                                   flipY := flipY s |};
                  isInteracting := true;
                  mode := liquify;
                  lastPos := Some coords |}).
Proof.
  destruct (isInteracting st) eqn:Hi;
    [|left; apply handleMouseMove_idle; auto].
  destruct (topCanvas env) eqn:Hc;
    [|left; apply handleMouseMove_idle; auto].
  destruct (shape st) as [s|] eqn:Hs;
    [|left; rewrite <- Hs; apply handleMouseMove_idle; auto].
  destruct (lastPos st) as [l|] eqn:Hl;
    [|left; rewrite <- Hs; apply handleMouseMove_idle; auto 6].
  destruct (mode st) eqn:Hm.
  1,2: left; rewrite <- Hs; apply handleMouseMove_idle;
    right; right; left; congruence.
  right. destruct (handleMouseMove_liquify env coords l st s Hi Hc Hm Hs Hl)
    as (pts & Hpts & H).
  exists s, l, pts. auto.
Qed.

Lemma quarterTurn_next (r : Z) : quarterTurn r -> quarterTurn (Z.rem (r + 90) 360).
Proof.
  unfold quarterTurn. simpl.
  intros [<-|[<-|[<-|[<-|[]]]]]; simpl; tauto.
Qed.

(** The generator makes a well-formed state and leaves a random source whose
    draws are in range. *)
Lemma generateRandomShape_wellFormed (g : RandomSource) (st : AppState) :
  (forall k, 0 <= g k < 1) ->
  exists s g',
    generateRandomShape g = Normal (s, g') /\
    wellFormed (setShape (fun _ => Some s) st) /\
    (forall k, 0 <= g' k < 1).
Proof.
  intros Hg.
  destruct (generateRandomShape_fields g Hg)
    as (s & Hgen & Hvs & Hpts & Hcol & Hrot & _).
  exists s. eexists. split; [exact Hgen|]. split; [|intros k; apply Hg].
  exists s. split; [reflexivity|].
  split.
  { rewrite Hvs, length_map, length_seq.
    pose proof (numPoints_range (g 0%nat) (Hg 0%nat)). lia. }
  split; [exact Hpts|].
  split; [rewrite Hrot; unfold quarterTurn; simpl; tauto | exact Hcol].
Qed.

(** Every handler keeps a well-formed state well-formed, and none throws. *)
Lemma step_wellFormed (env : Env) (ev : Event) (w : World) :
  wellFormed (appState w) ->
  (forall k, 0 <= random w k < 1) ->
  exists w',
    step env ev w = Normal w' /\
    wellFormed (appState w') /\
    (forall k, 0 <= random w' k < 1).
Proof.
  intros Hwf Hg.
  assert (Hkeep : forall st',
             shape st' = shape (appState w) ->
             exists w', bind (Normal {| appState := st'; random := random w |}) shapeEffect
                        = Normal w' /\
                        wellFormed (appState w') /\ (forall k, 0 <= random w' k < 1)).
  { intros st' Hst'. cbn [bind]. unfold shapeEffect. cbn [appState].
    destruct Hwf as (s & Hs & Hrest). rewrite Hst', Hs.
    eexists. split; [reflexivity|]. cbn [appState random].
    split; [|exact Hg]. exists s. rewrite Hst'. auto. }
  assert (Hset : forall s',
             (6 <= length (vertices s') <= 9)%nat ->
             computeBezierPoints (vertices s') = Normal (points s') ->
             quarterTurn (rotation s') ->
             (exists c, color s' = Some c /\ In c blobColors) ->
             forall st' g',
               shape st' = Some s' -> (forall k, 0 <= g' k < 1) ->
               exists w', bind (Normal {| appState := st'; random := g' |}) shapeEffect
                          = Normal w' /\
                          wellFormed (appState w') /\ (forall k, 0 <= random w' k < 1)).
  { intros s' Hlen Hpts Hrot Hcol st' g' Hst' Hg'. cbn [bind].
    unfold shapeEffect. cbn [appState]. rewrite Hst'.
    eexists. split; [reflexivity|]. cbn [appState random].
    split; [|exact Hg']. exists s'. auto. }
  pose proof Hwf as (s & Hs & Hlen & Hpts & Hrot & Hcol).
  unfold step.
  destruct ev as [c|c| |m| | | | | |]; cbn [handleEvent].
  - apply Hkeep. unfold handleMouseDown.
    destruct (topCanvas env); reflexivity.
  - destruct (handleMouseMove_cases env c (appState w))
      as [(st' & Hmove & Hsame) | (s0 & last & pts & Hs0 & Hpts0 & Hmove)];
      rewrite Hmove; cbn [bind].
    + apply Hkeep. exact Hsame.
    + rewrite Hs in Hs0. injection Hs0 as <-.
      eapply Hset; [| | | | reflexivity | exact Hg]; cbn [vertices points rotation color].
      * unfold newVertices. now rewrite length_map.
      * exact Hpts0.
      * exact Hrot.
      * exact Hcol.
  - apply Hkeep. reflexivity.
  - apply Hkeep. reflexivity.
  - unfold rotateShape, setShape. rewrite Hs.
    eapply Hset; [| | | | reflexivity | exact Hg];
      cbn [vertices points rotation color with_rotation]; auto using quarterTurn_next.
  - unfold flipHorizontal, setShape. rewrite Hs.
    eapply Hset; [| | | | reflexivity | exact Hg];
      cbn [vertices points rotation color with_flipX]; auto.
  - unfold flipVertical, setShape. rewrite Hs.
    eapply Hset; [| | | | reflexivity | exact Hg];
      cbn [vertices points rotation color with_flipY]; auto.
  - destruct (generateRandomShape_wellFormed (random w) (appState w) Hg)
      as (s' & g' & Hgen & (s1 & Hs1 & Hwf1) & Hg').
    rewrite Hgen. cbn [bind fst snd].
    cbn [shape setShape] in Hs1. injection Hs1 as <-.
    destruct Hwf1 as (Hlen1 & Hpts1 & Hrot1 & Hcol1).
    eapply Hset; [exact Hlen1 | exact Hpts1 | exact Hrot1 | exact Hcol1
                  | reflexivity | exact Hg'].
  - destruct w as [st g]. apply Hkeep. reflexivity.
  - destruct w as [st g]. apply Hkeep. reflexivity.
Qed.

Lemma run_wellFormed (env : Env) (evs : list Event) :
  forall w : World,
    wellFormed (appState w) ->
    (forall k, 0 <= random w k < 1) ->
    exists w',
      run env evs w = Normal w' /\
      wellFormed (appState w') /\
      (forall k, 0 <= random w' k < 1).
Proof.
  induction evs as [|ev evs IH]; intros w Hwf Hg; cbn [run].
  - exists w. auto.
  - destruct (step_wellFormed env ev w Hwf Hg) as (w1 & Hstep & Hwf1 & Hg1).
    rewrite Hstep. cbn [bind]. apply IH; assumption.
Qed.

(** X16. From mounting on, through any sequence of events, no handler and no
    effect throws, and the shape is always there and well-formed: it has
    between six and nine vertices, its points are the ones derived from its
    vertices, its rotation is 0, 90, 180 or 270, its colour is one of the
    palette; so [drawShape] can always paint it. *)
Theorem session_wellFormed (env : Env) (g : RandomSource) (evs : list Event) :
  (forall k, 0 <= g k < 1) ->
  exists w,
    session env g evs = Normal w /\
    wellFormed (appState w) /\
    forall ctx, exists ctx', drawShape true true (shape (appState w)) ctx = Normal ctx'.
Proof.
  intros Hg. unfold session, shapeEffect. cbn [appState shape initialState random].
  destruct (generateRandomShape_wellFormed g initialState Hg)
    as (s & g' & Hgen & Hwf & Hg').
  rewrite Hgen. cbn [bind fst snd].
  destruct (run_wellFormed env evs
              {| appState := setShape (fun _ => Some s) initialState; random := g' |}
              Hwf Hg') as (w & Hrun & Hwfw & _).
  exists w. split; [exact Hrun|]. split; [exact Hwfw|].
  intros ctx. destruct Hwfw as (s' & Hs' & Hlen & Hpts & _).
  rewrite Hs'.
  destruct (points s') as [|first rest] eqn:Hp.
  - apply computeBezierPoints_length in Hpts. cbn in Hpts. lia.
  - eexists. exact (drawShape_paints s' ctx first rest Hp).
Qed.

Lemma session_wellFormed_witness :
  exists w,
    session browser halfSource
      [PointerDown {| x := 300; y := 300 |}; ClickMode liquify; ClickRotate;
       PointerMove {| x := 310; y := 300 |}; PointerUp; ClickNewShape] = Normal w /\
    wellFormed (appState w).
Proof.
  assert (Hg : forall k, 0 <= halfSource k < 1) by (intros k; unfold halfSource; lra).
  destruct (session_wellFormed browser halfSource
              [PointerDown {| x := 300; y := 300 |}; ClickMode liquify; ClickRotate;
               PointerMove {| x := 310; y := 300 |}; PointerUp; ClickNewShape] Hg)
    as (w & Hrun & Hwf & _).
  exists w. split; assumption.
Defined.

(** One event other than New Shape: the shape stays, with as many vertices
    and the colour it had, no draw is taken from the random source, and
    unless the event is a pointer move the vertices and the points stay as
    well. *)
Lemma step_keeps (env : Env) (ev : Event) (w : World) (s : ShapeConfig) :
  shape (appState w) = Some s ->
  ev <> ClickNewShape ->
  exists w' s',
    step env ev w = Normal w' /\
    shape (appState w') = Some s' /\
    length (vertices s') = length (vertices s) /\
    color s' = color s /\
    random w' = random w /\
    ((forall c, ev <> PointerMove c) ->
     vertices s' = vertices s /\ points s' = points s).
Proof.
  intros Hs Hev.
  assert (Hkeep : forall st',
             shape st' = Some s ->
             exists w' s',
               bind (Normal {| appState := st'; random := random w |}) shapeEffect
               = Normal w' /\
               shape (appState w') = Some s' /\
               length (vertices s') = length (vertices s) /\
               color s' = color s /\
               random w' = random w /\
               ((forall c, ev <> PointerMove c) ->
                vertices s' = vertices s /\ points s' = points s)).
  { intros st' Hst'. cbn [bind]. unfold shapeEffect. cbn [appState]. rewrite Hst'.
    exists {| appState := st'; random := random w |}, s. cbn [appState random].
    repeat split; auto. }
  unfold step.
  destruct ev as [c|c| |m| | | | | |]; cbn [handleEvent].
  - apply Hkeep. unfold handleMouseDown. destruct (topCanvas env); exact Hs.
  - destruct (handleMouseMove_cases env c (appState w))
      as [(st' & Hmove & Hsame) | (s0 & last & pts & Hs0 & Hpts0 & Hmove)];
      rewrite Hmove; cbn [bind].
    + apply Hkeep. congruence.
    + rewrite Hs in Hs0. injection Hs0 as <-.
      unfold shapeEffect. cbn [appState shape].
      do 2 eexists. split; [reflexivity|]. cbn [appState shape random].
      split; [reflexivity|]. cbn [vertices color].
      split; [unfold newVertices; apply length_map|].
      split; [reflexivity|]. split; [reflexivity|].
      intros Hno. exfalso. exact (Hno c eq_refl).
  - apply Hkeep. exact Hs.
  - apply Hkeep. exact Hs.
  - unfold rotateShape, setShape. rewrite Hs.
    unfold shapeEffect. cbn [bind appState shape].
    do 2 eexists. split; [reflexivity|]. cbn [appState shape random].
    split; [reflexivity|]. cbn. auto.
  - unfold flipHorizontal, setShape. rewrite Hs.
    unfold shapeEffect. cbn [bind appState shape].
    do 2 eexists. split; [reflexivity|]. cbn [appState shape random].
    split; [reflexivity|]. cbn. auto.
  - unfold flipVertical, setShape. rewrite Hs.
    unfold shapeEffect. cbn [bind appState shape].
    do 2 eexists. split; [reflexivity|]. cbn [appState shape random].
    split; [reflexivity|]. cbn. auto.
  - congruence.
  - destruct w as [st g]. apply Hkeep. exact Hs.
  - destruct w as [st g]. apply Hkeep. exact Hs.
Qed.

(** X17. Only New Shape changes the number of vertices or the colour, or
    takes draws from the random source; and only a pointer move or New
    Shape changes the vertices and the points: rotating, flipping, changing
    the mode, pressing, releasing, clearing and saving leave them as they
    are. *)
Theorem run_keeps_shape (env : Env) (evs : list Event) :
  forall (w : World) (s : ShapeConfig),
    shape (appState w) = Some s ->
    ~ In ClickNewShape evs ->
    exists w' s',
      run env evs w = Normal w' /\
      shape (appState w') = Some s' /\
      length (vertices s') = length (vertices s) /\
      color s' = color s /\
      random w' = random w /\
      ((forall c, ~ In (PointerMove c) evs) ->
       vertices s' = vertices s /\ points s' = points s).
Proof.
  induction evs as [|ev evs IH]; intros w s Hs Hnew; cbn [run].
  - exists w, s. repeat split; auto.
  - destruct (step_keeps env ev w s Hs) as (w1 & s1 & Hstep & Hs1 & Hlen1 & Hcol1 & Hg1 & Hv1).
    { intros ->. apply Hnew. left. reflexivity. }
    rewrite Hstep. cbn [bind].
    destruct (IH w1 s1 Hs1) as (w' & s' & Hrun & Hs' & Hlen & Hcol & Hg & Hv).
    { intros Hin. apply Hnew. right. exact Hin. }
    exists w', s'. split; [exact Hrun|]. split; [exact Hs'|].
    split; [congruence|]. split; [congruence|]. split; [congruence|].
    intros Hno.
    destruct Hv1 as [Hv1 Hp1].
    { intros c ->. apply (Hno c). left. reflexivity. }
    destruct Hv as [Hv Hp].
    { intros c Hin. apply (Hno c). right. exact Hin. }
    split; congruence.
Qed.

Lemma run_keeps_shape_witness :
  exists w' s',
    run browser [ClickRotate; ClickFlipHorizontal; PointerDown {| x := 1; y := 2 |}; ClickSave]
      {| appState := noHistory (plainShape scenarioVertices); random := halfSource |}
      = Normal w' /\
    shape (appState w') = Some s' /\
    vertices s' = scenarioVertices.
Proof.
  destruct (run_keeps_shape browser
              [ClickRotate; ClickFlipHorizontal; PointerDown {| x := 1; y := 2 |}; ClickSave]
              {| appState := noHistory (plainShape scenarioVertices); random := halfSource |}
              (plainShape scenarioVertices) eq_refl)
    as (w' & s' & Hrun & Hs' & _ & _ & _ & Hv).
  - cbn. intros [H|[H|[H|[H|[]]]]]; discriminate H.
  - exists w', s'. split; [exact Hrun|]. split; [exact Hs'|].
    apply Hv. intros c. cbn. intros [H|[H|[H|[H|[]]]]]; discriminate H.
Defined.

(** ** The pointer session *)

(** X18. The press itself is the first sample of a drag: it records the
    pointer position, so the first move after a press in liquify mode has a
    previous position and displaces the vertices, from the press position
    to the position of the move, whatever was recorded before the press. *)
Theorem press_then_move (env : Env) (down coords : Vertex) (st : AppState)
  (s : ShapeConfig) :
  topCanvas env = true -> mode st = liquify -> shape st = Some s ->
  exists st' s',
    handleMouseMove env coords (handleMouseDown env down st) = Normal st' /\
    shape st' = Some s' /\
    vertices s' = newVertices s coords down /\
    lastPos st' = Some coords.
Proof.
  intros Hc Hm Hs.
  destruct (handleMouseMove_liquify env coords down (handleMouseDown env down st) s)
    as (pts & _ & H);
    try (unfold handleMouseDown; rewrite Hc; simpl; assumption || reflexivity).
  rewrite H. do 2 eexists. split; [reflexivity|]. repeat split.
Qed.

Lemma press_then_move_witness :
  exists st' s',
    handleMouseMove browser {| x := 460; y := 150 |}
      (handleMouseDown browser {| x := 450; y := 150 |}
         (noHistory (plainShape scenarioVertices))) = Normal st' /\
    shape st' = Some s' /\
    vertices s' =
      newVertices (plainShape scenarioVertices)
        {| x := 460; y := 150 |} {| x := 450; y := 150 |}.
Proof.
  destruct (press_then_move browser {| x := 450; y := 150 |} {| x := 460; y := 150 |}
              (noHistory (plainShape scenarioVertices)) (plainShape scenarioVertices)
              eq_refl eq_refl eq_refl) as (st' & s' & Hmove & Hs' & Hv & _).
  exists st', s'. repeat split; assumption.
Defined.


(** ** getCanvasCoords *)

(** X20. With the arithmetic read over the reals, [getCanvasCoords] maps the
    rectangle in which the page shows the
    canvas onto the bitmap of the canvas: for a canvas that is shown, the
    offset of the pointer in the rectangle is scaled by bitmap size over
    shown size, so a pointer inside the rectangle gets coordinates inside
    the bitmap; a touch event is read at its first touch, and one without
    touches throws. *)
Theorem getCanvasCoords_spec (canvas : HTMLCanvasElement) (cx cy : R) (others : list Touch) :
  let rect := getBoundingClientRect canvas in
  0 < rect_width rect ->
  0 < rect_height rect ->
  exists p,
    getCanvasCoords (MouseEvent cx cy) canvas = Normal p /\
    getCanvasCoords
      (TouchEvent ({| touch_clientX := cx; touch_clientY := cy |} :: others)) canvas
      = Normal p /\
    getCanvasCoords (TouchEvent []) canvas = TypeError /\
    x p * rect_width rect = (cx - rect_left rect) * canvas_width canvas /\
    y p * rect_height rect = (cy - rect_top rect) * canvas_height canvas /\
    (0 <= canvas_width canvas ->
     rect_left rect <= cx <= rect_left rect + rect_width rect ->
     0 <= x p <= canvas_width canvas) /\
    (0 <= canvas_height canvas ->
     rect_top rect <= cy <= rect_top rect + rect_height rect ->
     0 <= y p <= canvas_height canvas).
Proof.
  intros rect Hw Hh.
  eexists. split; [reflexivity|]. split; [reflexivity|]. split; [reflexivity|].
  cbn [x y fst snd]. fold rect.
  set (kx := canvas_width canvas / rect_width rect).
  set (ky := canvas_height canvas / rect_height rect).
  assert (Hkx : kx * rect_width rect = canvas_width canvas) by (unfold kx; field; lra).
  assert (Hky : ky * rect_height rect = canvas_height canvas) by (unfold ky; field; lra).
  split; [rewrite <- Hkx; ring|]. split; [rewrite <- Hky; ring|].
  split.
  - intros Hcw Hcx.
    assert (0 <= kx) by (unfold kx; apply Rle_mult_inv_pos; assumption).
    split; [apply Rmult_le_pos; lra|].
    rewrite <- Hkx. rewrite (Rmult_comm kx). apply Rmult_le_compat_r; lra.
  - intros Hch Hcy.
    assert (0 <= ky) by (unfold ky; apply Rle_mult_inv_pos; assumption).
    split; [apply Rmult_le_pos; lra|].
    rewrite <- Hky. rewrite (Rmult_comm ky). apply Rmult_le_compat_r; lra.
Qed.

Lemma getCanvasCoords_spec_witness :
  exists p,
    getCanvasCoords (MouseEvent 160 170) halfSizeCanvas = Normal p /\
    x p * 300 = (160 - 10) * 600 /\
    y p * 300 = (170 - 20) * 600.
Proof.
  destruct (getCanvasCoords_spec halfSizeCanvas 160 170 []) as (p & Hp & _ & _ & Hx & Hy & _).
  - simpl. lra.
  - simpl. lra.
  - exists p. split; [exact Hp|]. split; [exact Hx | exact Hy].
Defined.

(** ** The ink layer *)

Lemma transformPoint_identity (p : Vertex) : transformPoint identityMatrix p = p.
Proof.
  unfold transformPoint, identityMatrix. cbn [m_a m_b m_c m_d m_e m_f].
  apply vertex_eq; cbn [x y]; ring.
Qed.

(** A move keeps the mode and the interaction flag. *)
Lemma handleMouseMove_mode (env : Env) (coords : Vertex) (st st' : AppState) :
  handleMouseMove env coords st = Normal st' ->
  mode st' = mode st /\ isInteracting st' = isInteracting st.
Proof.
  unfold handleMouseMove, liquifyUpdate.
  destruct st as [[s|] interacting m [l|]];
    cbn [shape isInteracting mode lastPos];
    destruct interacting, (topCanvas env), m, (context2d env);
    cbn [negb mode_eqb orb bind];
    try destruct (computeBezierPoints _); cbn [bind];
    intros H; try discriminate H; injection H as <-; split; reflexivity.
Qed.

(** The moves of a stroke: each one extends the path by a line and strokes
    the whole path. *)
Lemma pointerMoves_stroke (env : Env) (path : list Vertex) :
  forall (st : AppState) (ctx : Context2D) (c0 : PathCommand) (cs : list PathCommand),
    topCanvas env = true -> context2d env = true ->
    isInteracting st = true ->
    mode st = draw \/ mode st = erase ->
    ds_transform (ctx_state ctx) = identityMatrix ->
    ctx_path ctx = c0 :: cs ->
    exists st',
      pointerMoves env path (st, ctx) =
        Normal (st',
                {| ctx_state := ctx_state ctx;
                   ctx_stack := ctx_stack ctx;
                   ctx_path := (c0 :: cs) ++ map LineTo path;
                   ctx_painted :=
                     ctx_painted ctx ++
                     map (fun j : nat =>
                            Stroke ((c0 :: cs) ++ map LineTo (firstn (S j) path))
                                   (ctx_state ctx))
                         (seq 0 (length path)) |}) /\
      shape st' = shape st.
Proof.
  induction path as [|c path IH]; intros st ctx c0 cs Hc H2d Hi Hm Hid Hpath.
  - exists st. cbn [pointerMoves map length seq firstn].
    rewrite !app_nil_r, <- Hpath. split; [now destruct ctx | reflexivity].
  - cbn [pointerMoves]. unfold pointerMove. cbn [fst snd].
    assert (Hmove : handleMouseMove env c st = Normal (set_lastPos (Some c) st)).
    { unfold handleMouseMove. rewrite Hi, Hc, H2d.
      destruct Hm as [-> | ->]; reflexivity. }
    rewrite Hmove. cbn [bind].
    assert (Hink : inkMouseMove env st c ctx =
                   {| ctx_state := ctx_state ctx;
                      ctx_stack := ctx_stack ctx;
                      ctx_path := (c0 :: cs) ++ [LineTo c];
                      ctx_painted :=
                        ctx_painted ctx ++ [Stroke ((c0 :: cs) ++ [LineTo c]) (ctx_state ctx)] |}).
    { unfold inkMouseMove. rewrite Hi, Hc, H2d.
      assert (Hmode : mode_eqb (mode st) draw || mode_eqb (mode st) erase = true)
        by (destruct Hm as [-> | ->]; reflexivity).
      rewrite Hmode. cbn [negb].
      unfold stroke, lineTo, paint, with_path.
      cbn [ctx_state ctx_stack ctx_path ctx_painted].
      rewrite Hid, Hpath, transformPoint_identity.
      destruct c as [px py]. reflexivity. }
    rewrite Hink.
    match goal with
    | |- context [pointerMoves env path (?st1, ?ctx1)] =>
        destruct (IH st1 ctx1 c0 (cs ++ [LineTo c]) Hc H2d Hi Hm Hid eq_refl)
          as (st' & Hrun & Hshape)
    end.
    exists st'. split; [|exact Hshape].
    rewrite Hrun. cbn [ctx_state ctx_stack ctx_path ctx_painted].
    do 2 f_equal.
    f_equal.
    + cbn [map app]. now rewrite <- app_assoc.
    + rewrite <- app_assoc. f_equal.
      cbn [length seq map firstn app].
      f_equal.
      rewrite <- seq_shift, map_map.
      apply map_ext. intros j. cbn [firstn map app].
      now rewrite <- app_assoc.
Qed.

(** X21. A stroke on the ink layer is the polyline through the pointer
    positions: after a press at [p0] in draw or erase mode and moves along
    [path], the path of the top canvas runs from [p0] through every
    position of [path] in order; each move has stroked the polyline up to
    its position, with the brush colour and width 4 in draw mode and with
    [destination-out] and width 20 in erase mode; and the shape is the one
    it was. *)
Theorem ink_stroke (env : Env) (st : AppState) (ctx : Context2D) (p0 : Vertex)
  (path : list Vertex) :
  topCanvas env = true -> context2d env = true ->
  mode st = draw \/ mode st = erase ->
  ds_transform (ctx_state ctx) = identityMatrix ->
  exists st' ctx',
    pointerMoves env path (pointerDown env p0 (st, ctx)) = Normal (st', ctx') /\
    ctx_path ctx' = MoveTo p0 :: map LineTo path /\
    ctx_painted ctx' =
      ctx_painted ctx ++
      map (fun j : nat =>
             Stroke (MoveTo p0 :: map LineTo (firstn (S j) path))
                    (strokeState (mode st) (ctx_state ctx)))
          (seq 0 (length path)) /\
    shape st' = shape st.
Proof.
  intros Hc H2d Hm Hid.
  unfold pointerDown. cbn [fst snd].
  assert (Hink : inkMouseDown env st p0 ctx =
                 {| ctx_state := strokeState (mode st) (ctx_state ctx);
                    ctx_stack := ctx_stack ctx;
                    ctx_path := [MoveTo p0];
                    ctx_painted := ctx_painted ctx |}).
  { unfold inkMouseDown. rewrite Hc, H2d.
    unfold moveTo, beginPath, with_path. cbn [ctx_state ctx_path].
    rewrite Hid, transformPoint_identity.
    destruct p0 as [px py].
    destruct Hm as [-> | ->]; reflexivity. }
  rewrite Hink.
  assert (Hdown : handleMouseDown env p0 st = setIsInteracting true (set_lastPos (Some p0) st))
    by (unfold handleMouseDown; now rewrite Hc).
  rewrite Hdown.
  match goal with
  | |- context [pointerMoves env path (?st1, ?ctx1)] =>
      destruct (pointerMoves_stroke env path st1 ctx1 (MoveTo p0) [] Hc H2d eq_refl Hm)
        as (st' & Hrun & Hshape); [exact Hid | reflexivity |]
  end.
  rewrite Hrun. do 2 eexists. split; [reflexivity|].
  cbn [ctx_path ctx_painted ctx_state]. repeat split. exact Hshape.
Qed.

Lemma ink_stroke_witness :
  exists st' ctx',
    pointerMoves browser [ {| x := 20; y := 10 |}; {| x := 30; y := 15 |} ]
      (pointerDown browser {| x := 10; y := 10 |}
         ({| shape := None; isInteracting := false; mode := erase; lastPos := None |},
          freshContext)) = Normal (st', ctx') /\
    ctx_path ctx' =
      [ MoveTo {| x := 10; y := 10 |}; LineTo {| x := 20; y := 10 |};
        LineTo {| x := 30; y := 15 |} ] /\
    shape st' = None.
Proof.
  destruct (ink_stroke browser
              {| shape := None; isInteracting := false; mode := erase; lastPos := None |}
              freshContext {| x := 10; y := 10 |}
              [ {| x := 20; y := 10 |}; {| x := 30; y := 15 |} ]
              eq_refl eq_refl (or_intror eq_refl) eq_refl)
    as (st' & ctx' & Hrun & Hpath & _ & Hshape).
  exists st', ctx'. repeat split; assumption.
Defined.

(** X22. Liquify paints no ink: after a press in liquify mode and any moves,
    the context of the top canvas is exactly as it was, path, drawing
    state and painted operations. *)
Theorem liquify_paints_no_ink (env : Env) (st : AppState) (ctx : Context2D)
  (p0 : Vertex) (path : list Vertex) :
  mode st = liquify ->
  exists st',
    pointerMoves env path (pointerDown env p0 (st, ctx)) = Normal (st', ctx).
Proof.
  intros Hm. unfold pointerDown. cbn [fst snd].
  assert (Hink : inkMouseDown env st p0 ctx = ctx).
  { unfold inkMouseDown. rewrite Hm. destruct (topCanvas env); reflexivity. }
  rewrite Hink.
  assert (Hmode : mode (handleMouseDown env p0 st) = liquify).
  { unfold handleMouseDown. destruct (topCanvas env); exact Hm. }
  revert Hmode. generalize (handleMouseDown env p0 st). clear Hink Hm st.
  induction path as [|c path IH]; intros st Hm; cbn [pointerMoves].
  - exists st. reflexivity.
  - unfold pointerMove. cbn [fst snd].
    destruct (handleMouseMove_total env c st) as (st1 & Hmove).
    rewrite Hmove. cbn [bind].
    assert (Hink : inkMouseMove env st c ctx = ctx).
    { unfold inkMouseMove. rewrite Hm.
      destruct (isInteracting st), (topCanvas env); reflexivity. }
    rewrite Hink. apply IH.
    destruct (handleMouseMove_mode env c st st1 Hmove) as [-> _]. exact Hm.
Qed.

Lemma liquify_paints_no_ink_witness :
  exists st',
    pointerMoves browser [ {| x := 460; y := 150 |} ]
      (pointerDown browser {| x := 450; y := 150 |}
         (noHistory (plainShape scenarioVertices), freshContext))
    = Normal (st', freshContext).
Proof.
  exact (liquify_paints_no_ink browser (noHistory (plainShape scenarioVertices))
           freshContext {| x := 450; y := 150 |} [ {| x := 460; y := 150 |} ] eq_refl).
Defined.
